(** * CNER: dictionary-based named entity recognition with an Aho-Corasick automaton

    A shallow embedding of [src/CNER.py] (classes [ACAutomaton] and
    [ChineseNER]) and the verification of its specification.

    Python values are modelled as the code uses them:
    - a [str] is the list of its Unicode code points;
    - a trie node is a [dict] object living in a store; a dict keeps the
      insertion order of its keys, so it is an association list;
    - the values stored in a node are either the string ["#"] or a
      reference to another dict (a child or the target of ['fail']);
    - exceptions are the [Raise] results of an error monad; [while] loops
      take fuel and run out of it as [Diverge]. *)

From stdpp Require Import base option list gmap strings.
From Stdlib Require Import ZArith NArith Ascii Permutation.

Local Open Scope Z_scope.

(** ** Python values *)

(** A character is a Unicode code point. *)
Abbreviation char := N.
Abbreviation pystr := (list N).

(** [str "AB"] is the Python literal ['AB'] (for ASCII literals). *)
Definition str (s : string) : pystr := map N_of_ascii (String.list_ascii_of_string s).

(** Every dict of the automaton is created by [add_word]'s
    [node.setdefault(char, {})], as the value under key [char] of an existing
    dict.  A dict object is named by the keys that led to it from the root
    when it was created; the root is named by the empty list.  No two dicts
    get the same name: [setdefault] creates a dict only under a key that the
    parent does not hold, and the only key holding a dict that is ever
    overwritten is ['#'], by the end marker, which stays. *)
Abbreviation addr := (list N) (only parsing).

Inductive value :=
  | VStr (s : pystr)
  | VRef (a : addr).

Abbreviation dict := (list (list N * value)).

Inductive exn := TypeError | AttributeError | KeyError | IndexError.

Inductive result (A : Type) :=
  | Ok (a : A)
  | Raise (e : exn)
  | Diverge.
Arguments Ok {A} a.
Arguments Raise {A} e.
Arguments Diverge {A}.

#[global] Instance result_ret : MRet result := fun A a => Ok a.
#[global] Instance result_bind : MBind result := fun A B f r =>
  match r with
  | Ok a => f a
  | Raise e => Raise e
  | Diverge => Diverge
  end.

#[global] Instance value_eq_dec : EqDecision value.
Proof. solve_decision. Defined.

(** ** dict operations (insertion ordered) *)

Fixpoint dict_get (d : dict) (k : pystr) : option value :=
  match d with
  | [] => None
  | (k', v) :: d' => if decide (k = k') then Some v else dict_get d' k
  end.

(** [d[k] = v]: an existing key keeps its place, a new key goes last. *)
Fixpoint dict_set (d : dict) (k : pystr) (v : value) : dict :=
  match d with
  | [] => [(k, v)]
  | (k', v') :: d' =>
      if decide (k = k') then (k, v) :: d' else (k', v') :: dict_set d' k v
  end.

Definition dict_has (d : dict) (k : pystr) : bool :=
  match dict_get d k with Some _ => true | None => false end.

(** [k in s] on two strings: [k] occurs in [s] as a substring. *)
Fixpoint str_contains (s k : pystr) : bool :=
  bool_decide (k `prefix_of` s) ||
  match s with
  | [] => false
  | _ :: s' => str_contains s' k
  end.

(** ** The store of dict objects *)

Definition deref (h : gmap addr dict) (a : addr) : dict := default [] (h !! a).

(** [self.root], [self.end_of_word] and the key ['fail']. *)
Definition root : value := VRef [].
Definition end_of_word : pystr := str "#".
Definition fail_key : pystr := str "fail".

(** [ACAutomaton.__init__]: [self.root = {}]. *)
Definition new_automaton : gmap addr dict := {[ [] := [] ]}.

(** [k in x] *)
Definition py_in (h : gmap addr dict) (k : pystr) (x : value) : bool :=
  match x with
  | VRef a => dict_has (deref h a) k
  | VStr s => str_contains s k
  end.

(** [x != self.root].  Python compares dicts by value, key by key.  In
    the states that [add_word] and [build_fail] produce no other dict has the
    value of the root: where no dict holds ['fail'] the dicts are finite trees
    and every other dict is a proper subtree of the root, and after
    [build_fail] a node holds the key ['fail'], which the root never gets, or
    lies below an edge ['#'], where no dict holds it, while a child of the
    root does (or the root is such a finite tree itself).  The model compares
    the references; the recursion limit of Python's own comparison is not
    modelled. *)
Definition py_ne_root (x : value) : bool :=
  match x with
  | VRef [] => false
  | _ => true
  end.

(** [x.get('fail', self.root)] *)
Definition py_get_fail (h : gmap addr dict) (x : value) : result value :=
  match x with
  | VRef a => Ok (default root (dict_get (deref h a) fail_key))
  | VStr _ => Raise AttributeError
  end.

(** [x[k]] *)
Definition py_getitem (h : gmap addr dict) (x : value) (k : pystr) : result value :=
  match x with
  | VRef a =>
      match dict_get (deref h a) k with
      | Some v => Ok v
      | None => Raise KeyError
      end
  | VStr _ => Raise TypeError
  end.

(** [x[k] = v] *)
Definition py_setitem (h : gmap addr dict) (x : value) (k : pystr) (v : value)
  : result (gmap addr dict) :=
  match x with
  | VRef a => Ok (<[a := dict_set (deref h a) k v]> h)
  | VStr _ => Raise TypeError
  end.

(** [x.setdefault(char, {})]: the new dict is named after its parent and key. *)
Definition py_setdefault (h : gmap addr dict) (x : value) (c : char)
  : result (gmap addr dict * value) :=
  match x with
  | VRef a =>
      match dict_get (deref h a) [c] with
      | Some v => Ok (h, v)
      | None =>
          let b := a ++ [c] in
          Ok (<[b := []]> (<[a := dict_set (deref h a) [c] (VRef b)]> h), VRef b)
      end
  | VStr _ => Raise AttributeError
  end.

(** [for key in x]: the keys of a dict, the characters of a string. *)
Definition py_keys (h : gmap addr dict) (x : value) : list pystr :=
  match x with
  | VRef a => (deref h a).*1
  | VStr s => (fun c => [c]) <$> s
  end.

(** ** ACAutomaton *)

(** [add_word], lines 13-18. *)
Fixpoint add_word_loop (h : gmap addr dict) (node : value) (word : pystr)
  : result (gmap addr dict) :=
  match word with
  | [] => py_setitem h node end_of_word (VStr end_of_word)
  | c :: word' =>
      '(h', node') ← py_setdefault h node c;
      add_word_loop h' node' word'
  end.

Definition add_word (h : gmap addr dict) (word : pystr) : result (gmap addr dict) :=
  add_word_loop h root word.

(** [build_fail], lines 25-28: the children of the root. *)
Fixpoint build_fail_root (h : gmap addr dict) (keys : list pystr) (queue : list value)
  : result (gmap addr dict * list value) :=
  match keys with
  | [] => Ok (h, queue)
  | key :: keys' =>
      if bool_decide (key ≠ end_of_word) then
        child ← py_getitem h root key;
        h' ← py_setitem h child fail_key root;
        child' ← py_getitem h' root key;
        build_fail_root h' keys' (queue ++ [child'])
      else build_fail_root h keys' queue
  end.

(** Lines 44-45: [while fail_node != self.root and key not in fail_node]. *)
Fixpoint fail_walk (n : nat) (h : gmap addr dict) (key : pystr) (fail_node : value)
  : result value :=
  match n with
  | O => Diverge
  | S n' =>
      if py_ne_root fail_node && negb (py_in h key fail_node) then
        fail_node' ← py_get_fail h fail_node;
        fail_walk n' h key fail_node'
      else Ok fail_node
  end.

(** Lines 34-52: the keys of one dequeued node.  The loop body writes to the
    children of the node, never to the node it iterates, so the keys are
    those the node has when the loop starts. *)
Fixpoint build_fail_node (n : nat) (h : gmap addr dict) (current_node : value)
    (keys : list pystr) (queue : list value)
  : result (gmap addr dict * list value) :=
  match keys with
  | [] => Ok (h, queue)
  | key :: keys' =>
      if bool_decide (key = end_of_word) || bool_decide (key = fail_key) then
        build_fail_node n h current_node keys' queue
      else
        child_node ← py_getitem h current_node key;
        fail_node ← py_getitem h current_node fail_key;
        fail_node ← fail_walk n h key fail_node;
        h' ← (if py_in h key fail_node then
                target ← py_getitem h fail_node key;
                py_setitem h child_node fail_key target
              else py_setitem h child_node fail_key root);
        build_fail_node n h' current_node keys' (queue ++ [child_node])
  end.

(** Lines 31-52: [while queue]; [k] bounds the iterations of this loop, [n]
    those of each inner loop. *)
Fixpoint build_fail_loop (n k : nat) (h : gmap addr dict) (queue : list value)
  : result (gmap addr dict) :=
  match k with
  | O => Diverge
  | S k' =>
      match queue with
      | [] => Ok h
      | current_node :: queue' =>
          '(h', queue'') ← build_fail_node n h current_node (py_keys h current_node) queue';
          build_fail_loop n k' h' queue''
      end
  end.

Definition build_fail (n : nat) (h : gmap addr dict) : result (gmap addr dict) :=
  '(h', queue) ← build_fail_root h (py_keys h root) [];
  build_fail_loop n n h' queue.

(** A match is the tuple [(start_pos, i + 1, text[start_pos:i+1])]. *)
Definition Match : Type := Z * Z * pystr.

(** [text[start:stop]] with Python's treatment of negative and large indices. *)
Definition clamp_index (len i : Z) : Z :=
  if i <? 0 then Z.max 0 (i + len) else Z.min i len.

Definition py_slice (text : pystr) (start stop : Z) : pystr :=
  let len := Z.of_nat (length text) in
  let lo := clamp_index len start in
  let hi := clamp_index len stop in
  take (Z.to_nat (hi - lo)) (drop (Z.to_nat lo) text).

(** [_get_word_length], lines 81-87. *)
Fixpoint get_word_length_loop (n : nat) (h : gmap addr dict) (node : value) (length : Z)
  : result Z :=
  match n with
  | O => Diverge
  | S n' =>
      if py_ne_root node && negb (py_in h end_of_word node) then
        node' ← py_get_fail h node;
        get_word_length_loop n' h node' (length + 1)
      else Ok length
  end.

Definition _get_word_length (n : nat) (h : gmap addr dict) (node : value) : result Z :=
  get_word_length_loop n h node 0.

(** [search], lines 61-62. *)
Fixpoint search_walk (n : nat) (h : gmap addr dict) (char : pystr) (current_node : value)
  : result value :=
  match n with
  | O => Diverge
  | S n' =>
      if py_ne_root current_node && negb (py_in h char current_node) then
        current_node' ← py_get_fail h current_node;
        search_walk n' h char current_node'
      else Ok current_node
  end.

(** [search], lines 70-77. *)
Fixpoint search_report (n k : nat) (h : gmap addr dict) (text : pystr) (i : Z)
    (temp : value) (results : list Match) : result (list Match) :=
  match k with
  | O => Diverge
  | S k' =>
      if py_ne_root temp then
        results' ← (if py_in h end_of_word temp then
                      word_length ← _get_word_length n h temp;
                      let start_pos := i - word_length + 1 in
                      Ok (results ++ [(start_pos, i + 1, py_slice text start_pos (i + 1))])
                    else Ok results);
        temp' ← py_get_fail h temp;
        search_report n k' h text i temp' results'
      else Ok results
  end.

(** [search], lines 59-79: [rest] is the part of [text] from index [i] on. *)
Fixpoint search_loop (n : nat) (h : gmap addr dict) (text : pystr) (i : Z)
    (rest : pystr) (current_node : value) (results : list Match)
  : result (list Match) :=
  match rest with
  | [] => Ok results
  | c :: rest' =>
      current_node ← search_walk n h [c] current_node;
      if py_in h [c] current_node then
        current_node ← py_getitem h current_node [c];
        results ← search_report n n h text i current_node results;
        search_loop n h text (i + 1) rest' current_node results
      else
        search_loop n h text (i + 1) rest' current_node results
  end.

Definition search (n : nat) (h : gmap addr dict) (text : pystr) : result (list Match) :=
  search_loop n h text 0 text root [].

(** ** ChineseNER *)

Record ChineseNER := {
  ac_automaton : gmap addr dict;
  entity_type_mapping : gmap pystr pystr
}.

Record Entity := {
  e_text : pystr;
  e_start : Z;
  e_end : Z;
  e_type : pystr
}.

#[global] Instance Entity_eq_dec : EqDecision Entity.
Proof. solve_decision. Defined.

(** One loop of [build_ac_automaton] (lines 133-143); [entities] is the set
    in the order its iteration yields it. *)
Fixpoint add_entities (label : pystr) (entities : list pystr)
    (h : gmap addr dict) (m : gmap pystr pystr)
  : result (gmap addr dict * gmap pystr pystr) :=
  match entities with
  | [] => Ok (h, m)
  | entity :: entities' =>
      h' ← add_word h entity;
      add_entities label entities' h' (<[entity := label]> m)
  end.

(** [__init__] after [load_entity_dicts], and [build_ac_automaton]. *)
Definition build_ac_automaton (n : nat) (loc per org : list pystr) : result ChineseNER :=
  '(h, m) ← add_entities (str "LOC") loc new_automaton ∅;
  '(h, m) ← add_entities (str "PER") per h m;
  '(h, m) ← add_entities (str "ORG") org h m;
  h ← build_fail n h;
  Ok {| ac_automaton := h; entity_type_mapping := m |}.

(** [matches.sort(key=lambda x: (x[0], -(x[1]-x[0])))]: a stable sort. *)
Definition sort_key (x : Match) : Z * Z := (x.1.1, - (x.1.2 - x.1.1)).

Definition key_le (a b : Z * Z) : bool :=
  (a.1 <? b.1) || ((a.1 =? b.1) && (a.2 <=? b.2)).

Fixpoint sort_insert (x : Match) (l : list Match) : list Match :=
  match l with
  | [] => [x]
  | y :: l' =>
      if key_le (sort_key x) (sort_key y) then x :: l else y :: sort_insert x l'
  end.

Definition list_sort (l : list Match) : list Match := foldr sort_insert [] l.

(** Lines 156-168. *)
Fixpoint resolve (m : gmap pystr pystr) (matches : list Match) (last_end : Z)
    (entities : list Entity) : list Entity :=
  match matches with
  | [] => entities
  | (start, end_, entity_text) :: matches' =>
      if last_end <=? start then
        let entity_type := default (str "UNK") (m !! entity_text) in
        resolve m matches' end_
          (entities ++ [{| e_text := entity_text; e_start := start;
                           e_end := end_; e_type := entity_type |}])
      else resolve m matches' last_end entities
  end.

Definition recognize_entities (n : nat) (ner : ChineseNER) (text : pystr)
  : result (list Entity) :=
  matches ← search n (ac_automaton ner) text;
  Ok (resolve (entity_type_mapping ner) (list_sort matches) (-1) []).

(** [bio_tags[i] = tag] on a list, with Python's negative indices. *)
Definition py_list_set (l : list pystr) (i : Z) (x : pystr) : result (list pystr) :=
  let len := Z.of_nat (length l) in
  if (0 <=? i) && (i <? len) then Ok (<[Z.to_nat i := x]> l)
  else if (- len <=? i) && (i <? 0) then Ok (<[Z.to_nat (i + len) := x]> l)
  else Raise IndexError.

(** [range(lo, hi)] *)
Definition py_range (lo hi : Z) : list Z :=
  (fun k => lo + Z.of_nat k) <$> seq 0 (Z.to_nat (hi - lo)).

(** Lines 188-189. *)
Fixpoint mark_inside (tag : pystr) (idxs : list Z) (bio_tags : list pystr)
  : result (list pystr) :=
  match idxs with
  | [] => Ok bio_tags
  | i :: idxs' =>
      bio_tags' ← py_list_set bio_tags i tag;
      mark_inside tag idxs' bio_tags'
  end.

(** Lines 179-189. *)
Fixpoint mark_entities (entities : list Entity) (bio_tags : list pystr)
  : result (list pystr) :=
  match entities with
  | [] => Ok bio_tags
  | entity :: entities' =>
      let start := e_start entity in
      let end_ := e_end entity in
      let entity_type := e_type entity in
      bio_tags ← (if start <? Z.of_nat (length bio_tags)
                   then py_list_set bio_tags start (str "B-" ++ entity_type)
                   else Ok bio_tags);
      bio_tags ← mark_inside (str "I-" ++ entity_type)
                   (py_range (start + 1) (Z.min end_ (Z.of_nat (length bio_tags))))
                   bio_tags;
      mark_entities entities' bio_tags
  end.

(** [text_to_bio], lines 172-196. *)
Definition text_to_bio (text : pystr) (entities : list Entity) : result (list pystr) :=
  let tokens := text in
  let bio_tags := replicate (length tokens) (str "O") in
  bio_tags ← mark_entities entities bio_tags;
  Ok (zip_with (fun token tag => [token] ++ str " " ++ tag) tokens bio_tags).

(** [add_word] called on a sequence of words, as the loops of
    [build_ac_automaton] do. *)
Fixpoint add_words (ws : list pystr) (h : gmap addr dict) : result (gmap addr dict) :=
  match ws with
  | [] => Ok h
  | w :: ws' =>
      h' ← add_word h w;
      add_words ws' h'
  end.

(** Build and compile an automaton for the words [ws]. *)
Definition compile (n : nat) (ws : list pystr) : result (gmap addr dict) :=
  h ← add_words ws new_automaton;
  build_fail n h.

(** ** Notions used by the specification *)

(** The character ['#']. *)
Definition hash : char := 35%N.

Definition hashfree (w : pystr) : Prop := hash ∉ w.

(** Following the edges [keys] from [x]: [x[k1][k2]...]. *)
Fixpoint py_walk (h : gmap addr dict) (x : value) (keys : list char) : option value :=
  match keys with
  | [] => Some x
  | c :: keys' =>
      match x with
      | VRef a =>
          match dict_get (deref h a) [c] with
          | Some y => py_walk h y keys'
          | None => None
          end
      | VStr _ => None
      end
  end.

(** [k] steps along the failure chain, each one [x.get('fail', self.root)]. *)
Fixpoint fail_iter (h : gmap addr dict) (k : nat) (x : value) : result value :=
  match k with
  | O => Ok x
  | S k' =>
      y ← py_get_fail h x;
      fail_iter h k' y
  end.

(** The root paths of the trie for the words [ws]. *)
Definition node_of (ws : list pystr) (p : addr) : Prop :=
  p = [] ∨ ∃ w, w ∈ ws ∧ p `prefix_of` w.

(** [q] is the longest proper suffix of [p] among the paths [N]. *)
Definition is_lps (N : addr → Prop) (p q : addr) : Prop :=
  q `suffix_of` p ∧ q ≠ p ∧ N q ∧
  ∀ q', q' `suffix_of` p → q' ≠ p → N q' → (length q' ≤ length q)%nat.

(** What the store holds for the trie with paths [N] and words [W]: every
    key found in a dict is the end marker, a failure link to the longest
    proper suffix, or an edge to the child named after it. *)
Record auto_inv (N W : addr → Prop) (h : gmap addr dict) : Prop := {
  inv_child : ∀ p c, N (p ++ [c]) → dict_get (deref h p) [c] = Some (VRef (p ++ [c]));
  inv_word : ∀ p, W p → dict_get (deref h p) end_of_word = Some (VStr end_of_word);
  inv_keys : ∀ p k v, dict_get (deref h p) k = Some v →
      (k = end_of_word ∧ v = VStr end_of_word ∧ W p)
    ∨ (k = fail_key ∧ p ≠ [] ∧ N p ∧ ∃ q, v = VRef q ∧ is_lps N p q)
    ∨ (∃ c, k = [c] ∧ c ≠ hash ∧ v = VRef (p ++ [c]) ∧ N (p ++ [c]));
  inv_nodup : ∀ p, NoDup (deref h p).*1
}.

Definition has_fail (h : gmap addr dict) (p : addr) : Prop :=
  dict_get (deref h p) fail_key ≠ None.

(** The entities are consecutive: each ends before the next starts. *)
Definition ordered (es : list Entity) : Prop :=
  ∀ i e1 e2, es !! i = Some e1 → es !! S i = Some e2 → e_end e1 ≤ e_start e2.

(** No two entities of the list share a position. *)
Definition non_overlapping (es : list Entity) : Prop :=
  ∀ i j e1 e2, i ≠ j → es !! i = Some e1 → es !! j = Some e2 →
    e_end e1 ≤ e_start e2 ∨ e_end e2 ≤ e_start e1.

(** The line of [text_to_bio] for the token [c] and the tag [tag]. *)
Definition bio_line (c : char) (tag : pystr) : pystr := [c] ++ str " " ++ tag.

(** The total length of the words, a bound on the number of trie nodes. *)
Definition total_len (ws : list pystr) : nat := length (concat ws).

(** Position [j] lies in the span of [e]; the tag [e] puts there. *)
Definition covers (e : Entity) (j : nat) : Prop :=
  e_start e ≤ Z.of_nat j < e_end e.

Definition tag_at (e : Entity) (j : nat) : pystr :=
  if bool_decide (Z.of_nat j = e_start e)
  then str "B-" ++ e_type e else str "I-" ++ e_type e.

(** The paths of a trie: the root is one, they are closed under prefixes,
    and no edge is labelled with the end marker. *)
Record paths_ok (N : addr → Prop) : Prop := {
  paths_nil : N [];
  paths_prefix : ∀ p c, N (p ++ [c]) → N p;
  paths_hashfree : ∀ p, N p → hash ∉ p
}.

(** A trie on which [build_fail] has not run: no dict has the key ['fail']. *)
Definition trie_inv (N W : addr → Prop) (h : gmap addr dict) : Prop :=
  auto_inv N W h ∧ ∀ p, dict_get (deref h p) fail_key = None.

(** The nodes of [nodes] that have no key ['fail'] yet. *)
Definition pending (nodes : list addr) (h : gmap addr dict) : nat :=
  length (filter (λ p, dict_has (deref h p) fail_key = false) nodes).

(** The state of [build_fail] inside the [for] loop over the keys [ks] that
    are left of the node [p] of depth [d]: [A] are the nodes of depth [d]
    still queued, [B] the queued nodes of depth [d + 1].  The nodes that have
    a failure link are those of depth at most [d] and those of [B], and [B]
    holds the children of the nodes of depth [d] that are done. *)
Record node_inv (N W : addr → Prop) (d : nat) (p : addr) (ks : list pystr)
    (A B : list addr) (h : gmap addr dict) : Prop := {
  ni_auto : auto_inv N W h;
  ni_cur : N p ∧ length p = d ∧ p ∉ A;
  ni_A : ∀ q, q ∈ A → N q ∧ length q = d;
  ni_B : ∀ q, q ∈ B → N q ∧ length q = S d;
  ni_nodup : NoDup A ∧ NoDup B;
  ni_fail : ∀ q, has_fail h q ↔ q ≠ [] ∧ N q ∧ ((length q ≤ d)%nat ∨ q ∈ B);
  ni_next : ∀ q c, N (q ++ [c]) → length q = d →
            (q ++ [c] ∈ B ↔ (q ∉ A) ∧ (q = p → [c] ∉ ks));
  ni_keys : NoDup ks ∧ ∀ k, k ∈ ks → k ∈ (deref h p).*1
}.

(** The state of [build_fail] between two iterations of its [while] loop. *)
Record bfs_inv (N W : addr → Prop) (d : nat) (A B : list addr)
    (h : gmap addr dict) : Prop := {
  bfs_auto : auto_inv N W h;
  bfs_A : ∀ q, q ∈ A → N q ∧ length q = d;
  bfs_B : ∀ q, q ∈ B → N q ∧ length q = S d;
  bfs_nodup : NoDup A ∧ NoDup B;
  bfs_fail : ∀ q, has_fail h q ↔ q ≠ [] ∧ N q ∧ ((length q ≤ d)%nat ∨ q ∈ B);
  bfs_next : ∀ q c, N (q ++ [c]) → length q = d → (q ++ [c] ∈ B ↔ q ∉ A)
}.

(** A compiled automaton: every node but the root has its failure link. *)
Definition compiled_inv (N W : addr → Prop) (h : gmap addr dict) : Prop :=
  auto_inv N W h ∧ ∀ p, p ≠ [] → N p → has_fail h p.

(** The paths of the nodes of the trie for [ws], the root apart. *)
Definition nonempty_prefixes (w : pystr) : list addr :=
  (λ i, take (S i) w) <$> seq 0 (length w).

Definition trie_nodes (ws : list pystr) : list addr :=
  concat (nonempty_prefixes <$> ws).

(** Two stores answer every lookup alike, except (when [P] holds) for the
    end marker of the root. *)
Definition agree_except (P : Prop) (h1 h2 : gmap addr dict) : Prop :=
  ∀ a k, (P ∧ a = [] ∧ k = end_of_word)
         ∨ dict_get (deref h1 a) k = dict_get (deref h2 a) k.

(** The labels recorded by one loop of [build_ac_automaton]. *)
Definition label_all (label : pystr) (entities : list pystr)
    (m : gmap pystr pystr) : gmap pystr pystr :=
  foldl (λ m entity, <[entity := label]> m) m entities.

#[global] Instance hashfree_dec w : Decision (hashfree w).
Proof. unfold hashfree. apply _. Defined.

(** ** The other functions of the file *)

(** [d[k] += n] on a [Counter] or a [defaultdict(int)]: a missing key
    counts 0 and is added last. *)
Fixpoint counter_add {K} `{EqDecision K} (d : list (K * Z)) (k : K) (n : Z)
  : list (K * Z) :=
  match d with
  | [] => [(k, 0 + n)]
  | (k', v) :: d' =>
      if decide (k = k') then (k', v + n) :: d' else (k', v) :: counter_add d' k n
  end.

(** [d[k]] on a [Counter]: 0 for a missing key. *)
Fixpoint counter_get {K} `{EqDecision K} (d : list (K * Z)) (k : K) : Z :=
  match d with
  | [] => 0
  | (k', v) :: d' => if decide (k = k') then v else counter_get d' k
  end.

(** [sum(d.values())] *)
Definition counter_total {K} (d : list (K * Z)) : Z := foldr Z.add 0 d.*2.

(** [analyze_entity_frequency], lines 214-219: the inner loop. *)
Definition count_entities (entity_counter : list (pystr * pystr * Z))
    (entities : list Entity) : list (pystr * pystr * Z) :=
  foldl (λ d entity, counter_add d (e_text entity, e_type entity) 1)
        entity_counter entities.

(** [analyze_entity_frequency], lines 211-226. *)
Definition analyze_entity_frequency (entities_list : list (list Entity))
  : list (pystr * pystr * Z) * list (pystr * Z) :=
  let entity_counter := foldl count_entities [] entities_list in
  let type_counter :=
    foldl (λ d '((text, entity_type), count), counter_add d entity_type count)
          [] entity_counter in
  (entity_counter, type_counter).

(** [s.strip()]: [is_space] tells the whitespace characters apart. *)
Fixpoint py_lstrip (is_space : char → bool) (s : pystr) : pystr :=
  match s with
  | [] => []
  | c :: s' => if is_space c then py_lstrip is_space s' else s
  end.

Definition py_strip (is_space : char → bool) (s : pystr) : pystr :=
  reverse (py_lstrip is_space (reverse (py_lstrip is_space s))).

(** [load_original_text], line 201, on the lines that reading the file
    yields: [[line.strip() for line in f if line.strip()]]. *)
Fixpoint load_original_text (is_space : char → bool) (lines : list pystr)
  : list pystr :=
  match lines with
  | [] => []
  | line :: lines' =>
      if bool_decide (py_strip is_space line ≠ [])
      then py_strip is_space line :: load_original_text is_space lines'
      else load_original_text is_space lines'
  end.

(** The patterns among [ws] that end where [s] ends. *)
Definition occurrences_ending (ws : list pystr) (s : pystr) : nat :=
  length (filter (λ w, w ≠ [] ∧ w `suffix_of` s) (remove_dups ws)).

(** What [search] reports on the part [rest] of a text, after the part [s]:
    at every position as many matches as patterns end there, each one the
    empty span that follows the position. *)
Fixpoint expected_from (ws : list pystr) (s rest : pystr) : list Match :=
  match rest with
  | [] => []
  | c :: rest' =>
      replicate (occurrences_ending ws (s ++ [c]))
                (Z.of_nat (length s) + 1, Z.of_nat (length s) + 1, [])
      ++ expected_from ws (s ++ [c]) rest'
  end.

Definition expected_matches (ws : list pystr) (text : pystr) : list Match :=
  expected_from ws [] text.

(** [p] is the longest suffix of [s] among the paths [N]. *)
Definition is_ls (N : addr → Prop) (s p : pystr) : Prop :=
  p `suffix_of` s ∧ N p ∧
  ∀ q, q `suffix_of` s → N q → (length q ≤ length p)%nat.

(** The entity that [recognize_entities] makes of a match. *)
Definition entity_of (m : gmap pystr pystr) (x : Match) : Entity :=
  {| e_text := x.2; e_start := x.1.1; e_end := x.1.2;
     e_type := default (str "UNK") (m !! x.2) |}.

(** [w] occurs in [text]. *)
Definition occurs_in (w text : pystr) : Prop := ∃ u v, text = u ++ w ++ v.

(** The positions [js] do not go down, and start at [lo] or later. *)
Fixpoint sorted_from (lo : Z) (js : list Z) : Prop :=
  match js with
  | [] => True
  | j :: js' => lo ≤ j ∧ sorted_from j js'
  end.

(** The match that [search] reports when a pattern ends at position [j]. *)
Definition point_match (j : Z) : Match := (j + 1, j + 1, []).

(** [load_entity_dicts], lines 103-126, for one dictionary file, [None]
    when it does not exist: the set keeps its initial value [set()] then,
    and is [set(line.strip() for line in f if line.strip())] otherwise,
    the comprehension of [load_original_text]. *)
Definition load_entity_file (is_space : char → bool) (file : option (list pystr))
  : gset pystr :=
  match file with
  | Some f => list_to_set (load_original_text is_space f)
  | None => ∅
  end.

Definition load_entity_dicts (is_space : char → bool)
    (loc_file per_file org_file : option (list pystr))
  : gset pystr * gset pystr * gset pystr :=
  (load_entity_file is_space loc_file,
   load_entity_file is_space per_file,
   load_entity_file is_space org_file).

(** [ChineseNER.__init__], lines 92-101: the dictionaries are loaded, and the
    automaton is built from the sets; [iter] is the order in which the
    iteration of a set yields its elements. *)
Definition ChineseNER_init (n : nat) (is_space : char → bool)
    (iter : gset pystr → list pystr)
    (loc_file per_file org_file : option (list pystr)) : result ChineseNER :=
  let '(loc_entities, per_entities, org_entities) :=
    load_entity_dicts is_space loc_file per_file org_file in
  build_ac_automaton n (iter loc_entities) (iter per_entities) (iter org_entities).

(** The lines of a dictionary file, none when the file does not exist. *)
Definition file_lines (file : option (list pystr)) : list pystr := default [] file.

(** Some ['#'] of [rest] comes right after a word of [ws]; [s] is the text
    before [rest]. *)
Fixpoint hash_after_word (ws : list pystr) (s rest : pystr) : bool :=
  match rest with
  | [] => false
  | c :: rest' =>
      (bool_decide (c = hash) && bool_decide (Exists (λ w, w `suffix_of` s) ws))
      || hash_after_word ws (s ++ [c]) rest'
  end.

(** * Properties *)

(** ** The error monad *)

Lemma bind_Ok_inv {A B} (r : result A) (f : A → result B) b :
  r ≫= f = Ok b → ∃ a, r = Ok a ∧ f a = Ok b.
Proof. destruct r; simpl; intros; [eauto | done | done]. Qed.

Lemma bind_Ok {A B} (a : A) (f : A → result B) : Ok a ≫= f = f a.
Proof. done. Qed.

(** ** dicts *)

Lemma dict_get_set_eq d k v : dict_get (dict_set d k v) k = Some v.
Proof.
  induction d as [|[k' v'] d IH]; simpl.
  - by rewrite decide_True.
  - destruct (decide (k = k')) as [->|Hne]; simpl.
    + by rewrite decide_True.
    + by rewrite decide_False.
Qed.

Lemma dict_get_set_ne d k k' v :
  k ≠ k' → dict_get (dict_set d k v) k' = dict_get d k'.
Proof.
  intros Hne. induction d as [|[k0 v0] d IH]; simpl.
  - by rewrite decide_False.
  - destruct (decide (k = k0)) as [->|Hne0]; simpl.
    + by rewrite !decide_False.
    + destruct (decide (k' = k0)); done.
Qed.

Lemma dict_get_Some_keys d k v : dict_get d k = Some v → k ∈ d.*1.
Proof.
  induction d as [|[k' v'] d IH]; simpl; [done|].
  destruct (decide (k = k')) as [->|Hne]; intros H.
  - apply list_elem_of_here.
  - apply list_elem_of_further. auto.
Qed.

Lemma dict_get_None_keys d k : dict_get d k = None → k ∉ d.*1.
Proof.
  induction d as [|[k' v'] d IH]; simpl.
  - intros _. apply not_elem_of_nil.
  - destruct (decide (k = k')) as [->|Hne]; [done|].
    intros H. apply not_elem_of_cons. split; auto.
Qed.

Lemma dict_keys_get d k : k ∈ d.*1 → is_Some (dict_get d k).
Proof.
  intros Hin. destruct (dict_get d k) eqn:E; [eauto|].
  by apply dict_get_None_keys in E.
Qed.

Lemma dict_set_keys d k v :
  (dict_set d k v).*1 =
  match dict_get d k with Some _ => d.*1 | None => d.*1 ++ [k] end.
Proof.
  induction d as [|[k' v'] d IH]; [done|].
  cbn [dict_set dict_get].
  destruct (decide (k = k')) as [->|Hne]; [done|].
  rewrite !fmap_cons, IH. by destruct (dict_get d k).
Qed.

Lemma dict_set_nodup d k v : NoDup d.*1 → NoDup (dict_set d k v).*1.
Proof.
  intros Hnd. rewrite dict_set_keys.
  destruct (dict_get d k) eqn:E; [done|].
  apply NoDup_app. split_and!; [done| |apply NoDup_singleton].
  intros x Hx ->%list_elem_of_singleton. by apply dict_get_None_keys in E.
Qed.

Lemma deref_insert_eq (h : gmap addr dict) a d : deref (<[a := d]> h) a = d.
Proof. unfold deref. by rewrite lookup_insert_eq. Qed.

Lemma deref_insert_ne (h : gmap addr dict) a b d :
  a ≠ b → deref (<[a := d]> h) b = deref h b.
Proof. intros. unfold deref. by rewrite lookup_insert_ne. Qed.

(** ** The matches of [search] *)

Lemma py_slice_empty text i : py_slice text i i = [].
Proof. unfold py_slice. by rewrite Z.sub_diag. Qed.

(** On a node that holds the end marker the loop of [_get_word_length] is
    not entered. *)
Lemma get_word_length_marked n h x r :
  py_in h end_of_word x = true → _get_word_length n h x = Ok r → r = 0.
Proof.
  intros Hin. destruct n as [|n]; [done|].
  unfold _get_word_length; simpl. rewrite Hin, andb_false_r. congruence.
Qed.

Lemma get_word_length_marked_Ok n h x :
  py_in h end_of_word x = true → _get_word_length (S n) h x = Ok 0.
Proof.
  intros Hin. unfold _get_word_length; simpl. by rewrite Hin, andb_false_r.
Qed.

Lemma search_report_shape n k h text i temp rs rs' :
  search_report n k h text i temp rs = Ok rs' →
  ∃ extra, rs' = rs ++ extra ∧ Forall (λ m, m = (i + 1, i + 1, [])) extra.
Proof.
  revert temp rs. induction k as [|k IH]; intros temp rs; simpl; [done|].
  destruct (py_ne_root temp).
  2:{ intros [= <-]. exists []. by rewrite app_nil_r. }
  intros (rs1 & Hrs1 & H)%bind_Ok_inv.
  apply bind_Ok_inv in H as (temp' & _ & H).
  apply IH in H as (extra & -> & Hextra).
  destruct (py_in h end_of_word temp) eqn:Hin.
  - apply bind_Ok_inv in Hrs1 as (wl & Hwl & [= <-]).
    apply get_word_length_marked in Hwl as ->; [|done].
    replace (i - 0 + 1) with (i + 1) by lia. rewrite py_slice_empty.
    exists ((i + 1, i + 1, []) :: extra). split; [by rewrite <- app_assoc|].
    by constructor.
  - injection Hrs1 as <-. eauto.
Qed.

Lemma search_loop_shape n h text i rest cur rs rs' :
  search_loop n h text i rest cur rs = Ok rs' →
  ∃ extra, rs' = rs ++ extra ∧
    Forall (λ m, ∃ j, i ≤ j < i + Z.of_nat (length rest) ∧ m = (j + 1, j + 1, [])) extra.
Proof.
  revert i cur rs. induction rest as [|c rest IH]; intros i cur rs; simpl.
  { intros [= <-]. exists []. by rewrite app_nil_r. }
  intros (cur1 & _ & H)%bind_Ok_inv.
  assert (Hweak : ∀ extra : list Match,
    Forall (λ m, ∃ j, i + 1 ≤ j < i + 1 + Z.of_nat (length rest)
                      ∧ m = (j + 1, j + 1, [])) extra →
    Forall (λ m, ∃ j, i ≤ j < i + Z.of_nat (S (length rest))
                      ∧ m = (j + 1, j + 1, [])) extra).
  { intros extra Hex. eapply Forall_impl; [exact Hex|].
    intros m (j & Hj & ->). exists j. split; [lia|done]. }
  destruct (py_in h [c] cur1).
  - apply bind_Ok_inv in H as (cur2 & _ & H).
    apply bind_Ok_inv in H as (rs1 & Hrep & H).
    apply search_report_shape in Hrep as (ex1 & -> & Hex1).
    apply IH in H as (ex2 & -> & Hex2).
    exists (ex1 ++ ex2). split; [by rewrite app_assoc|].
    apply Forall_app. split; [|by apply Hweak].
    eapply Forall_impl; [exact Hex1|]. intros m ->. exists i. split; [lia|done].
  - apply IH in H as (ex2 & -> & Hex2). exists ex2. split; [done|by apply Hweak].
Qed.

(** Every match that [search] reports is an empty span just after the
    position where a marked node was met. *)
Lemma search_matches_empty n h text ms m :
  search n h text = Ok ms → m ∈ ms →
  ∃ j, 0 ≤ j < Z.of_nat (length text) ∧ m = (j + 1, j + 1, []).
Proof.
  intros (extra & -> & Hall)%search_loop_shape Hin. simpl in *.
  rewrite Forall_forall in Hall. apply Hall in Hin as (j & Hj & ->).
  exists j. split; [lia|done].
Qed.

(** ** The sort and the sweep of [recognize_entities] *)

Lemma sort_insert_elem x y l : y ∈ sort_insert x l ↔ y = x ∨ y ∈ l.
Proof.
  induction l as [|z l IH]; simpl.
  - rewrite list_elem_of_singleton, elem_of_nil. tauto.
  - destruct (key_le _ _).
    + by rewrite elem_of_cons.
    + rewrite !elem_of_cons, IH. tauto.
Qed.

Lemma list_sort_elem y l : y ∈ list_sort l ↔ y ∈ l.
Proof.
  induction l as [|x l IH]; simpl; [done|].
  by rewrite sort_insert_elem, IH, elem_of_cons.
Qed.

Lemma ordered_snoc es e :
  ordered es → (∀ e', last es = Some e' → e_end e' ≤ e_start e) → ordered (es ++ [e]).
Proof.
  intros Hord Hlast i e1 e2 H1 H2.
  destruct (decide (S i < length es)%nat) as [Hlt|Hge].
  - rewrite lookup_app_l in H1, H2 by lia. eauto.
  - assert (S i = length es) as Hi.
    { apply lookup_lt_Some in H2. rewrite length_app in H2. simpl in H2. lia. }
    rewrite lookup_app_l in H1 by lia.
    rewrite lookup_app_r, Hi, Nat.sub_diag in H2 by lia. injection H2 as <-.
    apply Hlast. rewrite last_lookup. rewrite <- Hi. exact H1.
Qed.

Lemma resolve_ordered m ms last_end es :
  ordered es → (∀ e, last es = Some e → e_end e = last_end) →
  ordered (resolve m ms last_end es).
Proof.
  revert last_end es. induction ms as [|[[s e] t] ms IH]; intros last_end es Hord Hlast.
  { done. }
  simpl. destruct (last_end <=? s) eqn:Hle.
  - apply IH.
    + apply ordered_snoc; [done|]. intros e' He'. simpl.
      apply Hlast in He'. apply Z.leb_le in Hle. lia.
    + intros e'. rewrite last_snoc. by intros [= <-].
  - by apply IH.
Qed.

Lemma resolve_types m ms last_end es :
  Forall (λ e, e_type e = default (str "UNK") (m !! e_text e)) es →
  Forall (λ e, e_type e = default (str "UNK") (m !! e_text e))
         (resolve m ms last_end es).
Proof.
  revert last_end es. induction ms as [|[[s e] t] ms IH]; intros last_end es Hes.
  { done. }
  simpl. destruct (last_end <=? s); [|by apply IH].
  apply IH. apply Forall_app. split; [done|]. by constructor.
Qed.

Lemma resolve_Forall (P : Entity → Prop) m ms last_end es :
  Forall (λ x : Match, ∀ ty, P {| e_text := x.2; e_start := x.1.1;
                                 e_end := x.1.2; e_type := ty |}) ms →
  Forall P es → Forall P (resolve m ms last_end es).
Proof.
  revert last_end es. induction ms as [|[[s e] t] ms IH]; intros last_end es Hms Hes.
  { done. }
  apply Forall_cons in Hms as [Hx Hms].
  simpl. destruct (last_end <=? s); [|by apply IH].
  apply IH; [done|]. apply Forall_app. split; [done|]. constructor; [|done].
  apply Hx.
Qed.

(** ** [text_to_bio] *)

Lemma py_list_set_in (l : list pystr) (i : Z) x :
  0 ≤ i < Z.of_nat (length l) → py_list_set l i x = Ok (<[Z.to_nat i := x]> l).
Proof.
  intros Hi. unfold py_list_set.
  destruct (0 <=? i) eqn:E1; [|lia]. destruct (i <? _) eqn:E2; [done|lia].
Qed.

Lemma mark_inside_in tag lo k (tags : list pystr) :
  0 ≤ lo → lo + Z.of_nat k ≤ Z.of_nat (length tags) →
  ∃ tags', mark_inside tag ((λ j, lo + Z.of_nat j) <$> seq 0 k) tags = Ok tags' ∧
    length tags' = length tags ∧
    ∀ j : nat, tags' !! j = if bool_decide (lo ≤ Z.of_nat j < lo + Z.of_nat k)
                        then Some tag else tags !! j.
Proof.
  revert lo tags. induction k as [|k IH]; intros lo tags Hlo Hhi.
  { simpl. exists tags. split_and!; [done..|]. intros j. rewrite bool_decide_false by lia. done. }
  cbn [seq fmap list_fmap mark_inside].
  replace (lo + Z.of_nat 0) with lo by lia.
  rewrite py_list_set_in by lia. rewrite bind_Ok.
  rewrite <- fmap_S_seq, <- list_fmap_compose.
  specialize (IH (lo + 1) (<[Z.to_nat lo := tag]> tags)).
  rewrite length_insert in IH.
  destruct IH as (tags' & Hm & Hlen & Htags); [lia..|].
  exists tags'. split_and!; [|done|].
  - rewrite <- Hm. f_equal. apply list_fmap_ext. intros ? j ?. simpl. lia.
  - intros j. rewrite Htags. clear Htags Hm.
    destruct (decide (Z.of_nat j = lo)) as [Hj|Hj].
    + rewrite bool_decide_false by lia. rewrite bool_decide_true by lia.
      replace (Z.to_nat lo) with j by lia.
      apply list_lookup_insert_eq. lia.
    + rewrite list_lookup_insert_ne by lia.
      do 2 case_bool_decide; try done; lia.
Qed.

Lemma py_range_eq lo hi : py_range lo hi = (λ j, lo + Z.of_nat j) <$> seq 0 (Z.to_nat (hi - lo)).
Proof. done. Qed.

(** One entity inside the text marks its own positions and no other. *)
Lemma mark_entity_in (e : Entity) (tags : list pystr) :
  0 ≤ e_start e < e_end e → e_end e ≤ Z.of_nat (length tags) →
  ∃ tags1 tags',
    (if e_start e <? Z.of_nat (length tags)
     then py_list_set tags (e_start e) (str "B-" ++ e_type e)
     else Ok tags) = Ok tags1 ∧
    mark_inside (str "I-" ++ e_type e)
       (py_range (e_start e + 1) (Z.min (e_end e) (Z.of_nat (length tags1)))) tags1
    = Ok tags' ∧
    length tags' = length tags ∧
    ∀ j : nat, tags' !! j =
      if bool_decide (Z.of_nat j = e_start e) then Some (str "B-" ++ e_type e)
      else if bool_decide (e_start e < Z.of_nat j < e_end e) then Some (str "I-" ++ e_type e)
      else tags !! j.
Proof.
  intros Hse Hlen.
  destruct (Z.ltb_spec (e_start e) (Z.of_nat (length tags))) as [E|E]; [|exfalso; lia].
  assert (0 ≤ e_start e < Z.of_nat (length tags)) as HH by lia.
  rewrite (py_list_set_in _ _ _ HH).
  destruct (mark_inside_in (str "I-" ++ e_type e) (e_start e + 1)
              (Z.to_nat (e_end e - (e_start e + 1)))
              (<[Z.to_nat (e_start e) := str "B-" ++ e_type e]> tags))
    as (tags' & Hm & Hl & Ht).
  { lia. } { rewrite length_insert. lia. }
  eexists _, tags'. split; [done|].
  rewrite length_insert in Hl |- *. rewrite Z.min_l by lia. rewrite py_range_eq.
  split_and!; [done..|].
  intros j. rewrite Ht.
  destruct (decide (Z.of_nat j = e_start e)) as [Hj|Hj].
  - rewrite bool_decide_false by lia. rewrite bool_decide_true by lia.
    replace (Z.to_nat (e_start e)) with j by lia.
    apply list_lookup_insert_eq. lia.
  - rewrite list_lookup_insert_ne by lia. rewrite (bool_decide_false _ Hj).
    do 2 case_bool_decide; try done; lia.
Qed.

Lemma non_overlapping_cons e es :
  non_overlapping (e :: es) →
  (∀ e', e' ∈ es → e_end e ≤ e_start e' ∨ e_end e' ≤ e_start e) ∧ non_overlapping es.
Proof.
  intros H. split.
  - intros e' (i & Hi)%list_elem_of_lookup. apply (H 0%nat (S i)); done.
  - intros i j e1 e2 Hij H1 H2. apply (H (S i) (S j)); [lia|done..].
Qed.

Lemma mark_entities_in (es : list Entity) (tags : list pystr) :
  (∀ e, e ∈ es → 0 ≤ e_start e < e_end e ∧ e_end e ≤ Z.of_nat (length tags)) →
  non_overlapping es →
  ∃ tags', mark_entities es tags = Ok tags' ∧ length tags' = length tags ∧
    ∀ j : nat,
      (∀ e, e ∈ es → covers e j → tags' !! j = Some (tag_at e j)) ∧
      ((∀ e, e ∈ es → ¬ covers e j) → tags' !! j = tags !! j).
Proof.
  revert tags. induction es as [|e es IH]; intros tags Hin Hno.
  { exists tags. split_and!; [done..|]. intros j. split; [|done].
    intros e He. by apply not_elem_of_nil in He. }
  apply non_overlapping_cons in Hno as [Hhd Hno].
  cbn [mark_entities]. cbv zeta.
  destruct (mark_entity_in e tags) as (tags0 & tags1 & -> & Hm1 & Hl1 & Ht1).
  { apply Hin, list_elem_of_here. } { apply Hin, list_elem_of_here. }
  rewrite bind_Ok, Hm1, bind_Ok.
  destruct (IH tags1) as (tags' & -> & Hl & Ht); [|done|].
  { intros e' He'. rewrite Hl1. apply Hin. by apply list_elem_of_further. }
  exists tags'. split_and!; [done|congruence|].
  intros j. destruct (Ht j) as [Hc Hn]. split.
  - intros e' [->|He']%elem_of_cons Hcov; [|by apply Hc].
    rewrite Hn.
    + rewrite Ht1. unfold tag_at, covers in *.
      case_bool_decide; [done|]. rewrite bool_decide_true by lia. done.
    + intros e2 He2 Hcov2. unfold covers in *.
      assert (0 ≤ e_start e2 < e_end e2) by (apply Hin; by apply list_elem_of_further).
      destruct (Hhd e2 He2); lia.
  - intros Hnone. rewrite Hn.
    + rewrite Ht1. 
      assert (¬ covers e j) as Hne by (apply Hnone, list_elem_of_here).
      unfold covers in Hne.
      assert (0 ≤ e_start e < e_end e) by (apply Hin, list_elem_of_here).
      rewrite !bool_decide_false by lia. done.
    + intros e2 He2. apply Hnone. by apply list_elem_of_further.
Qed.


(** ** The trie built by [add_word] *)

Lemma end_of_word_eq : end_of_word = [hash].
Proof. reflexivity. Qed.

Lemma fail_key_length : length fail_key = 4%nat.
Proof. reflexivity. Qed.

Lemma char_key_ne_fail (c : char) : [c] ≠ fail_key.
Proof. intros H. apply (f_equal length) in H. by rewrite fail_key_length in H. Qed.

Lemma char_key_ne_end (c : char) : c ≠ hash → [c] ≠ end_of_word.
Proof. rewrite end_of_word_eq. congruence. Qed.

Lemma end_ne_fail : end_of_word ≠ fail_key.
Proof. rewrite end_of_word_eq. apply char_key_ne_fail. Qed.

Lemma auto_inv_proper N N' W W' h :
  (∀ p, N p ↔ N' p) → (∀ p, W p ↔ W' p) → auto_inv N W h → auto_inv N' W' h.
Proof.
  intros HN HW [H1 H2 H3 H4]. split.
  - intros p c Hp. apply H1. by apply HN.
  - intros p Hp. apply H2. by apply HW.
  - intros p k v Hg. destruct (H3 p k v Hg) as [(-> & -> & Hw)|[(-> & Hne & Hp & q & -> & Hq)|(c & -> & Hc & -> & Hp)]].
    + left. split_and!; [done..|]. by apply HW.
    + right; left. split_and!; [done..| by apply HN|].
      exists q. split; [done|]. destruct Hq as (Hs & Hqp & HNq & Hmax).
      split_and!; [done..|by apply HN|]. intros q' ? ? ?%HN. by apply Hmax.
    + right; right. exists c. split_and!; [done..|]. by apply HN.
  - done.
Qed.

Lemma trie_inv_proper N N' W W' h :
  (∀ p, N p ↔ N' p) → (∀ p, W p ↔ W' p) → trie_inv N W h → trie_inv N' W' h.
Proof. intros HN HW [H Hf]. split; [by eapply auto_inv_proper|done]. Qed.

Lemma new_automaton_inv : trie_inv (node_of []) (λ p, p ∈ @nil pystr) new_automaton.
Proof.
  assert (∀ p, deref new_automaton p = []) as Hd.
  { intros p. unfold deref, new_automaton.
    destruct (decide (p = [])) as [->|Hne].
    - by rewrite lookup_singleton_eq.
    - by rewrite lookup_singleton_ne. }
  split; [split|].
  - intros p c [Hp|(w & Hw & _)]; [by destruct p|]. by apply elem_of_nil in Hw.
  - intros p Hp. by apply elem_of_nil in Hp.
  - intros p k v. by rewrite Hd.
  - intros p. rewrite Hd. constructor.
  - intros p. by rewrite Hd.
Qed.

Section add_word.
Context (N W : addr → Prop) (HN : paths_ok N) (HW : ∀ p, W p → N p).

Lemma py_setdefault_inv h pre c :
  trie_inv N W h → N pre → c ≠ hash →
  ∃ h', py_setdefault h (VRef pre) c = Ok (h', VRef (pre ++ [c])) ∧
        trie_inv (λ p, N p ∨ p = pre ++ [c]) W h'.
Proof.
  intros [Hinv Hnf] Hpre Hc. unfold py_setdefault.
  destruct (dict_get (deref h pre) [c]) as [v|] eqn:Hget.
  - destruct (inv_keys _ _ _ Hinv _ _ _ Hget)
      as [(He & _)|[(He & _)|(c' & [= <-] & _ & -> & Hp)]].
    { by apply char_key_ne_end in He. } { by apply char_key_ne_fail in He. }
    eexists. split; [done|].
    eapply trie_inv_proper; [| |by split]; [|done].
    intros p. split; [by left|]. by intros [?| ->].
  - assert (¬ N (pre ++ [c])) as HnN.
    { intros HNb. by rewrite (inv_child _ _ _ Hinv _ _ HNb) in Hget. }
    eexists. split; [done|].
    set (b := pre ++ [c]) in *.
    assert (b ≠ pre) as Hbp.
    { intros Heq. apply (f_equal length) in Heq. unfold b in Heq.
      rewrite length_app in Heq. simpl in Heq. lia. }
    set (h' := <[b:=[]]> (<[pre:=dict_set (deref h pre) [c] (VRef b)]> h)).
    assert (deref h' b = []) as Hdb by apply deref_insert_eq.
    assert (deref h' pre = dict_set (deref h pre) [c] (VRef b)) as Hdp.
    { unfold h'. rewrite deref_insert_ne by done. apply deref_insert_eq. }
    assert (∀ p, p ≠ b → p ≠ pre → deref h' p = deref h p) as Hdo.
    { intros p ? ?. unfold h'. by rewrite !deref_insert_ne. }
    split; [split|].
    + intros p c' [Hp| Hp].
      * assert (N p) as HNp by (by eapply paths_prefix).
        assert (p ≠ b) by congruence.
        destruct (decide (p = pre)) as [->|Hne].
        -- rewrite Hdp, dict_get_set_ne; [by apply (inv_child _ _ _ Hinv)|].
           intros [= ->]. done.
        -- rewrite Hdo by done. by apply (inv_child _ _ _ Hinv).
      * apply app_inj_tail in Hp as [-> ->]. by rewrite Hdp, dict_get_set_eq.
    + intros p Hp. assert (p ≠ b) by (intros ->; by apply HnN, HW).
      destruct (decide (p = pre)) as [->|Hne].
      * rewrite Hdp, dict_get_set_ne by (by apply char_key_ne_end).
        by apply (inv_word _ _ _ Hinv).
      * rewrite Hdo by done. by apply (inv_word _ _ _ Hinv).
    + intros p k v Hg.
      destruct (decide (p = b)) as [->|Hpb]; [by rewrite Hdb in Hg|].
      assert (dict_get (deref h p) k = Some v ∨ (p = pre ∧ k = [c] ∧ v = VRef b))
        as [Hold|(-> & -> & ->)].
      { destruct (decide (p = pre)) as [->|Hne]; [|left; by rewrite <- Hdo].
        rewrite Hdp in Hg. destruct (decide ([c] = k)) as [<-|Hk].
        - rewrite dict_get_set_eq in Hg. right. by injection Hg as <-.
        - rewrite dict_get_set_ne in Hg by done. by left. }
      * destruct (inv_keys _ _ _ Hinv _ _ _ Hold)
          as [?|[(-> & _)|(c' & -> & ? & -> & ?)]].
        -- by left.
        -- by rewrite Hnf in Hold.
        -- right; right. exists c'. split_and!; [done..|by left].
      * right; right. exists c. split_and!; [done..|by right].
    + intros p. destruct (decide (p = b)) as [->|Hpb]; [rewrite Hdb; constructor|].
      destruct (decide (p = pre)) as [->|Hne].
      * rewrite Hdp. apply dict_set_nodup, (inv_nodup _ _ _ Hinv).
      * rewrite Hdo by done. apply (inv_nodup _ _ _ Hinv).
    + intros p. destruct (decide (p = b)) as [->|Hpb]; [by rewrite Hdb|].
      destruct (decide (p = pre)) as [->|Hne].
      * rewrite Hdp, dict_get_set_ne by apply char_key_ne_fail. apply Hnf.
      * rewrite Hdo by done. apply Hnf.
Qed.

Lemma paths_ok_extend pre c :
  N pre → c ≠ hash → paths_ok (λ p, N p ∨ p = pre ++ [c]).
Proof.
  intros Hpre Hc. split.
  - left. apply HN.
  - intros p c' [Hp|Hp]; left.
    + by eapply paths_prefix.
    + by apply app_inj_tail in Hp as [-> _].
  - intros p [Hp| ->]; [by apply HN|].
    rewrite elem_of_app, list_elem_of_singleton.
    intros [Hin|Heq]; [|done]. by apply (paths_hashfree _ HN pre).
Qed.

Lemma add_word_end_inv h pre :
  trie_inv N W h → N pre →
  ∃ h', py_setitem h (VRef pre) end_of_word (VStr end_of_word) = Ok h' ∧
        trie_inv N (λ p, W p ∨ p = pre) h'.
Proof.
  intros [Hinv Hnf] Hpre. eexists. split; [done|].
  set (h' := <[pre:=dict_set (deref h pre) end_of_word (VStr end_of_word)]> h).
  assert (deref h' pre = dict_set (deref h pre) end_of_word (VStr end_of_word)) as Hdp
    by apply deref_insert_eq.
  assert (∀ p, p ≠ pre → deref h' p = deref h p) as Hdo.
  { intros p ?. unfold h'. by rewrite deref_insert_ne. }
  split; [split|].
  - intros p c Hp. destruct (decide (p = pre)) as [->|Hne].
    + rewrite Hdp, dict_get_set_ne; [by apply (inv_child _ _ _ Hinv)|].
      rewrite end_of_word_eq. intros [= <-].
      apply (paths_hashfree _ HN _ Hp). rewrite elem_of_app, list_elem_of_singleton. auto.
    + rewrite Hdo by done. by apply (inv_child _ _ _ Hinv).
  - intros p [Hp| ->].
    + destruct (decide (p = pre)) as [->|Hne].
      * by rewrite Hdp, dict_get_set_eq.
      * rewrite Hdo by done. by apply (inv_word _ _ _ Hinv).
    + by rewrite Hdp, dict_get_set_eq.
  - intros p k v Hg.
    assert (dict_get (deref h p) k = Some v
            ∨ (p = pre ∧ k = end_of_word ∧ v = VStr end_of_word)) as [Hold|(-> & -> & ->)].
    { destruct (decide (p = pre)) as [->|Hne]; [|left; by rewrite <- Hdo].
      rewrite Hdp in Hg. destruct (decide (end_of_word = k)) as [<-|Hk].
      - rewrite dict_get_set_eq in Hg. right. by injection Hg as <-.
      - rewrite dict_get_set_ne in Hg by done. by left. }
    + destruct (inv_keys _ _ _ Hinv _ _ _ Hold)
        as [(-> & -> & ?)|[(-> & _)|(c' & -> & ? & -> & ?)]].
      * left. auto.
      * by rewrite Hnf in Hold.
      * right; right. exists c'. done.
    + left. auto.
  - intros p. destruct (decide (p = pre)) as [->|Hne].
    + rewrite Hdp. apply dict_set_nodup, (inv_nodup _ _ _ Hinv).
    + rewrite Hdo by done. apply (inv_nodup _ _ _ Hinv).
  - intros p. destruct (decide (p = pre)) as [->|Hne].
    + rewrite Hdp, dict_get_set_ne by apply end_ne_fail. apply Hnf.
    + rewrite Hdo by done. apply Hnf.
Qed.
End add_word.

Lemma add_word_loop_inv rest : ∀ N W h pre,
  paths_ok N → (∀ p, W p → N p) → trie_inv N W h → N pre → hashfree rest →
  ∃ h', add_word_loop h (VRef pre) rest = Ok h' ∧
    trie_inv (λ p, N p ∨ ∃ r, r `prefix_of` rest ∧ p = pre ++ r)
             (λ p, W p ∨ p = pre ++ rest) h'.
Proof.
  induction rest as [|c rest IH]; intros N W h pre HN HW Hinv Hpre Hfree.
  - destruct (add_word_end_inv N W HN h pre Hinv Hpre) as (h' & Hset & Hinv').
    exists h'. split; [done|]. eapply trie_inv_proper; [| |exact Hinv'].
    + intros p. split; [by left|]. intros [?|(r & Hr%prefix_nil_inv & ->)]; [done|].
      subst r. by rewrite app_nil_r.
    + intros p. by rewrite app_nil_r.
  - assert (c ≠ hash ∧ hashfree rest) as [Hc Hrest].
    { unfold hashfree in *. rewrite not_elem_of_cons in Hfree.
      destruct Hfree as [Hne Hrest]. split; [congruence|done]. }
    destruct (py_setdefault_inv N W HN HW h pre c Hinv Hpre Hc) as (h1 & Hsd & Hinv1).
    cbn [add_word_loop]. rewrite Hsd, bind_Ok.
    destruct (IH _ W h1 (pre ++ [c]) (paths_ok_extend N HN pre c Hpre Hc))
      as (h' & Hloop & Hinv'); [by left; apply HW| done | by right | done |].
    exists h'. split; [done|]. eapply trie_inv_proper; [| |exact Hinv'].
    + intros p. split.
      * intros [[?| ->]|(r & Hr & ->)]; [by left|right..].
        -- exists [c]. split; [|done]. by apply prefix_cons, prefix_nil.
        -- exists (c :: r). split; [by apply prefix_cons|]. by rewrite <- app_assoc.
      * intros [?|(r & Hr & ->)]; [by left; left|].
        destruct r as [|c' r].
        -- left; left. by rewrite app_nil_r.
        -- apply prefix_cons_inv_1 in Hr as Hcc. subst c'.
           apply prefix_cons_inv_2 in Hr. right. exists r. split; [done|].
           by rewrite <- app_assoc.
    + intros p. by rewrite <- app_assoc.
Qed.

Lemma node_of_ext ws ws' p :
  (∀ w, w ∈ ws ↔ w ∈ ws') → node_of ws p ↔ node_of ws' p.
Proof.
  intros H. unfold node_of. split; (intros [?|(w & Hw & ?)]; [by left|right]);
    exists w; split; [by apply H|done|by apply H|done].
Qed.

Lemma node_of_paths_ok ws : Forall hashfree ws → paths_ok (node_of ws).
Proof.
  intros Hfree. split.
  - by left.
  - intros p c [Hp|(w & Hw & Hpre)]; [by destruct p|].
    right. exists w. split; [done|]. etrans; [|exact Hpre]. by apply prefix_app_r.
  - intros p [->|(w & Hw & [k ->])]; [apply not_elem_of_nil|].
    rewrite Forall_forall in Hfree. specialize (Hfree _ Hw). unfold hashfree in Hfree.
    rewrite not_elem_of_app in Hfree. tauto.
Qed.

Lemma word_node_of ws w : w ∈ ws → node_of ws w.
Proof. intros Hw. right. by exists w. Qed.

Lemma add_word_inv ws h w :
  Forall hashfree ws → hashfree w → trie_inv (node_of ws) (.∈ ws) h →
  ∃ h', add_word h w = Ok h' ∧ trie_inv (node_of (w :: ws)) (.∈ w :: ws) h'.
Proof.
  intros Hws Hw Hinv.
  destruct (add_word_loop_inv w (node_of ws) (.∈ ws) h [])
    as (h' & Hadd & Hinv'); [by apply node_of_paths_ok|apply word_node_of|done|by left|done|].
  exists h'. split; [done|]. eapply trie_inv_proper; [| |exact Hinv'].
  - intros p. simpl. split.
    + intros [[->|(w' & Hw' & Hp)]|(r & Hr & ->)].
      * by left.
      * right. exists w'. split; [by apply list_elem_of_further|done].
      * right. exists w. split; [by apply list_elem_of_here|done].
    + intros [->|(w' & [->|Hw']%elem_of_cons & Hp)].
      * left. by left.
      * right. by exists p.
      * left. right. by exists w'.
  - intros p. simpl. rewrite elem_of_cons. tauto.
Qed.

Lemma add_words_inv ws : ∀ ws0 h,
  Forall hashfree ws0 → Forall hashfree ws → trie_inv (node_of ws0) (.∈ ws0) h →
  ∃ h', add_words ws h = Ok h' ∧
    ∀ ws', (∀ w, w ∈ ws' ↔ w ∈ ws0 ∨ w ∈ ws) → trie_inv (node_of ws') (.∈ ws') h'.
Proof.
  induction ws as [|w ws IH]; intros ws0 h Hws0 Hws Hinv.
  - exists h. split; [done|]. intros ws' Hws'. eapply trie_inv_proper; [| |exact Hinv].
    + intros p. apply node_of_ext. intros w. rewrite Hws', elem_of_nil. tauto.
    + intros p. simpl. rewrite Hws', elem_of_nil. tauto.
  - apply Forall_cons in Hws as [Hw Hws].
    destruct (add_word_inv ws0 h w Hws0 Hw Hinv) as (h1 & Hadd & Hinv1).
    destruct (IH (w :: ws0) h1) as (h' & Hadds & Hinv'); [by constructor|done..|].
    exists h'. cbn [add_words]. rewrite Hadd, bind_Ok. split; [done|].
    intros ws' Hws'. apply Hinv'. intros w'. rewrite Hws', !elem_of_cons. tauto.
Qed.

Lemma add_words_new_inv ws :
  Forall hashfree ws →
  ∃ h, add_words ws new_automaton = Ok h ∧
    ∀ ws', (∀ w, w ∈ ws' ↔ w ∈ ws) → trie_inv (node_of ws') (.∈ ws') h.
Proof.
  intros Hws.
  destruct (add_words_inv ws [] new_automaton) as (h & Hadd & Hinv);
    [constructor|done|apply new_automaton_inv|].
  exists h. split; [done|]. intros ws' Hws'. apply Hinv.
  intros w. rewrite Hws', elem_of_nil. tauto.
Qed.

(** ** The failure links written by [build_fail] *)

Lemma suffix_of_shorter {A} (q1 q2 p : list A) :
  q1 `suffix_of` p → q2 `suffix_of` p → (length q1 ≤ length q2)%nat → q1 `suffix_of` q2.
Proof.
  intros H1 H2 Hlen. destruct (suffix_weak_total q1 q2 p H1 H2) as [?|H]; [done|].
  apply suffix_length_eq in H as ->; done.
Qed.

Lemma suffix_snoc_cases {A} (q p : list A) c :
  q `suffix_of` p ++ [c] → q = [] ∨ ∃ q0, q = q0 ++ [c] ∧ q0 `suffix_of` p.
Proof.
  destruct q as [|c' q0 _] using rev_ind; [by left|].
  intros H. right. exists q0.
  apply suffix_snoc_inv_1 in H as Hc. subst. split; [done|].
  by apply suffix_snoc_inv_2 in H.
Qed.

Lemma is_lps_length N p q : is_lps N p q → (length q < length p)%nat.
Proof.
  intros (Hs & Hne & _). apply suffix_length in Hs as Hl.
  destruct (decide (length q = length p)) as [Heq|]; [|lia].
  exfalso. apply Hne. apply suffix_length_eq; [done|lia].
Qed.

Lemma is_lps_unique N p q1 q2 : is_lps N p q1 → is_lps N p q2 → q1 = q2.
Proof.
  intros (Hs1 & Hn1 & HN1 & Hm1) (Hs2 & Hn2 & HN2 & Hm2).
  apply suffix_length_eq; [|by apply Hm1].
  apply (suffix_of_shorter _ _ p); [done..|]. by apply Hm2.
Qed.

Lemma is_lps_single N c : N [] → is_lps N [c] [].
Proof.
  intros HN. split_and!; [apply suffix_nil|done|done|].
  intros q' Hs Hne _. apply suffix_length in Hs as Hl. simpl in Hl.
  destruct q' as [|c' [|? ?]]; simpl in *; [lia| |lia].
  exfalso. apply Hne. apply suffix_length_eq; [done|simpl; lia].
Qed.

Lemma filter_length_le {A} (P Q : A → Prop) `{!∀ x, Decision (P x)} `{!∀ x, Decision (Q x)} l :
  (∀ y, Q y → P y) → (length (filter Q l) ≤ length (filter P l))%nat.
Proof.
  intros HQP. induction l as [|y l IH]; [done|].
  rewrite !filter_cons. destruct (decide (Q y)) as [Hq|Hq].
  - rewrite decide_True by auto. simpl. lia.
  - destruct (decide (P y)); simpl; lia.
Qed.

Lemma filter_length_lt {A} (P Q : A → Prop) `{!∀ x, Decision (P x)} `{!∀ x, Decision (Q x)} l x :
  x ∈ l → P x → ¬ Q x → (∀ y, Q y → P y) →
  (length (filter Q l) < length (filter P l))%nat.
Proof.
  intros Hin HP HQ HQP. induction l as [|y l IH]; [by apply elem_of_nil in Hin|].
  rewrite !filter_cons. apply elem_of_cons in Hin as [<-|Hin].
  - destruct (decide (Q x)); [done|]. destruct (decide (P x)); [|done]. simpl.
    pose proof (filter_length_le P Q l HQP). lia.
  - specialize (IH Hin). destruct (decide (Q y)) as [Hq|Hq].
    + rewrite decide_True by auto. simpl. lia.
    + destruct (decide (P y)); simpl; lia.
Qed.

Lemma has_fail_dict_has h p : has_fail h p ↔ dict_has (deref h p) fail_key = true.
Proof. unfold has_fail, dict_has. destruct (dict_get _ _); split; congruence. Qed.

Lemma pending_decrease nodes h h' x :
  x ∈ nodes → ¬ has_fail h x → has_fail h' x →
  (∀ q, has_fail h q → has_fail h' q) →
  (pending nodes h' < pending nodes h)%nat.
Proof.
  intros Hx Hnf Hf Hmono. unfold pending. apply (filter_length_lt _ _ _ x); [done| | |].
  - rewrite has_fail_dict_has in Hnf. by apply not_true_is_false.
  - rewrite has_fail_dict_has in Hf. by rewrite Hf.
  - intros q Hq. destruct (dict_has (deref h q) fail_key) eqn:E; [|done].
    apply has_fail_dict_has, Hmono, has_fail_dict_has in E. congruence.
Qed.

Lemma py_getitem_Some h p k v :
  dict_get (deref h p) k = Some v → py_getitem h (VRef p) k = Ok v.
Proof. intros H. unfold py_getitem. by rewrite H. Qed.

Section build_fail.
Context (N W : addr → Prop) (HN : paths_ok N).
Context (nodes : list addr) (Hnodes : ∀ p, p ≠ [] → N p → p ∈ nodes).

Lemma hash_child p c : N (p ++ [c]) → c ≠ hash.
Proof.
  intros Hp ->. apply (paths_hashfree _ HN _ Hp).
  rewrite elem_of_app, list_elem_of_singleton. auto.
Qed.

(** [key in node] is true exactly for the edges of the trie. *)
Lemma py_in_child h p c :
  auto_inv N W h → c ≠ hash → py_in h [c] (VRef p) = true ↔ N (p ++ [c]).
Proof.
  intros Hinv Hc. unfold py_in, dict_has. split.
  - destruct (dict_get (deref h p) [c]) as [v|] eqn:Hg; [|done]. intros _.
    destruct (inv_keys _ _ _ Hinv _ _ _ Hg)
      as [(He & _)|[(He & _)|(c' & [= <-] & _ & _ & Hp)]]; [| |done].
    + by apply char_key_ne_end in He.
    + by apply char_key_ne_fail in He.
  - intros Hp. by rewrite (inv_child _ _ _ Hinv _ _ Hp).
Qed.

Lemma py_getitem_child h p c :
  auto_inv N W h → N (p ++ [c]) → py_getitem h (VRef p) [c] = Ok (VRef (p ++ [c])).
Proof. intros Hinv Hp. unfold py_getitem. by rewrite (inv_child _ _ _ Hinv _ _ Hp). Qed.

Lemma has_fail_lps h p :
  auto_inv N W h → has_fail h p →
  ∃ q, dict_get (deref h p) fail_key = Some (VRef q) ∧ is_lps N p q.
Proof.
  intros Hinv Hf. unfold has_fail in Hf.
  destruct (dict_get (deref h p) fail_key) as [v|] eqn:Hg; [|done].
  destruct (inv_keys _ _ _ Hinv _ _ _ Hg)
    as [(He & _)|[(_ & _ & _ & q & -> & Hq)|(c' & He & _)]]; [|by eauto|].
  - symmetry in He. by apply end_ne_fail in He.
  - symmetry in He. by apply char_key_ne_fail in He.
Qed.

(** The walk of lines 44-45 stops at the longest suffix of [f] that has
    an edge [c], or at the root. *)
Lemma fail_walk_spec h c (D : nat) :
  auto_inv N W h → c ≠ hash →
  (∀ q, q ≠ [] → N q → (length q ≤ D)%nat → has_fail h q) →
  ∀ n f, N f → (length f ≤ D)%nat → (length f < n)%nat →
  ∃ g, fail_walk n h [c] (VRef f) = Ok (VRef g) ∧
       g `suffix_of` f ∧ N g ∧ (g = [] ∨ N (g ++ [c])) ∧
       ∀ g', g' `suffix_of` f → N g' → N (g' ++ [c]) → (length g' ≤ length g)%nat.
Proof.
  intros Hinv Hc Hfail. induction n as [|n IH]; intros f Hf HD Hn; [lia|].
  cbn [fail_walk].
  destruct (py_in h [c] (VRef f)) eqn:Hin.
  { rewrite andb_false_r. exists f. split_and!; [done..| |].
    - right. by apply (py_in_child h f c Hinv Hc).
    - intros g' Hg' _ _. by apply suffix_length. }
  rewrite andb_true_r.
  destruct f as [|c0 f0].
  { exists []. split_and!; [done..|by left|]. by intros g' ->%suffix_nil_inv. }
  cbn [py_ne_root].
  destruct (has_fail_lps h (c0 :: f0) Hinv) as (f1 & Hg & Hlps); [by apply Hfail|].
  unfold py_get_fail. rewrite Hg. cbn [default]. rewrite bind_Ok.
  apply is_lps_length in Hlps as Hlen.
  destruct Hlps as (Hs1 & Hne1 & HN1 & Hmax1).
  destruct (IH f1 HN1) as (g & Hw & Hsg & HNg & Hex & Hmax); [lia..|].
  exists g. split_and!; [done|by etrans|done..|].
  intros g' Hg' HNg' Hc'. apply Hmax; [|done..].
  assert (g' ≠ c0 :: f0).
  { intros ->. apply (py_in_child h _ c Hinv Hc) in Hc'. congruence. }
  apply (suffix_of_shorter _ _ (c0 :: f0)); [done..|]. by apply Hmax1.
Qed.

(** The target chosen in lines 47-50 is the longest proper suffix of the
    child's path. *)
Lemma proper_suffix_child p c f q' :
  is_lps N p f → q' `suffix_of` p ++ [c] → q' ≠ p ++ [c] → N q' →
  q' = [] ∨ ∃ q0, q' = q0 ++ [c] ∧ q0 `suffix_of` f ∧ N q0.
Proof.
  intros (Hsf & Hnef & HNf & Hmaxf) Hs Hne HNq.
  destruct (suffix_snoc_cases _ _ _ Hs) as [->|(q0 & -> & Hs0)]; [by left|].
  right. exists q0. assert (N q0) by (by eapply paths_prefix).
  split_and!; [done| |done].
  apply (suffix_of_shorter _ _ p); [done..|]. apply Hmaxf; [done| |done].
  intros ->. done.
Qed.

Lemma fail_target_child p c f g :
  is_lps N p f → g `suffix_of` f → N (g ++ [c]) →
  (∀ g', g' `suffix_of` f → N g' → N (g' ++ [c]) → (length g' ≤ length g)%nat) →
  is_lps N (p ++ [c]) (g ++ [c]).
Proof.
  intros Hlps Hsg HNgc Hmax.
  pose proof (is_lps_length _ _ _ Hlps) as Hlen.
  pose proof (suffix_length _ _ Hsg) as Hlg.
  destruct Hlps as (Hsf & Hnef & HNf & Hmaxf).
  split_and!.
  - apply suffix_snoc. by etrans.
  - intros [Heq _]%app_inj_tail. subst. lia.
  - done.
  - intros q' Hs Hne HNq.
    destruct (proper_suffix_child p c f q') as [->|(q0 & -> & Hs0 & HN0)];
      [done..|simpl; lia|].
    rewrite !length_app. simpl. specialize (Hmax q0 Hs0 HN0 HNq). lia.
Qed.

Lemma fail_target_root p c f :
  is_lps N p f → ¬ N [c] →
  (∀ g', g' `suffix_of` f → N g' → N (g' ++ [c]) → (length g' ≤ 0)%nat) →
  is_lps N (p ++ [c]) [].
Proof.
  intros Hlps Hnc Hmax. split_and!.
  - apply suffix_nil.
  - by destruct p.
  - apply HN.
  - intros q' Hs Hne HNq.
    destruct (proper_suffix_child p c f q') as [->|(q0 & -> & Hs0 & HN0)]; [done..|].
    specialize (Hmax q0 Hs0 HN0 HNq). destruct q0; simpl in *; [done|lia].
Qed.

(** Writing the failure link of the child [p ++ [c]] and queueing it. *)
Lemma set_fail_step d p c ks A B h t :
  node_inv N W d p ([c] :: ks) A B h → N (p ++ [c]) → is_lps N (p ++ [c]) t →
  node_inv N W d p ks A (B ++ [p ++ [c]])
    (<[p ++ [c] := dict_set (deref h (p ++ [c])) fail_key (VRef t)]> h) ∧
  (pending nodes (<[p ++ [c] := dict_set (deref h (p ++ [c])) fail_key (VRef t)]> h)
   < pending nodes h)%nat.
Proof.
  intros [Hinv (HNp & Hlp & HpA) HA HB [HndA HndB] Hfail Hnext [Hndk Hks]] Hchild Hlps.
  set (child := p ++ [c]) in *.
  set (h' := <[child := dict_set (deref h child) fail_key (VRef t)]> h).
  assert (length child = S d) as Hlc.
  { unfold child. rewrite length_app. simpl. lia. }
  assert (child ∉ B) as HcB.
  { intros Hin. apply Hnext in Hin as [_ Hin]; [|done..].
    apply Hin; [done|]. apply list_elem_of_here. }
  assert (¬ has_fail h child) as Hnf.
  { intros (_ & _ & [?|?])%Hfail; [lia|done]. }
  assert (child ≠ p) as Hcp.
  { intros Heq. rewrite Heq in Hlc. lia. }
  assert (deref h' child = dict_set (deref h child) fail_key (VRef t)) as Hdc
    by apply deref_insert_eq.
  assert (∀ q, q ≠ child → deref h' q = deref h q) as Hdo.
  { intros q ?. unfold h'. by rewrite deref_insert_ne. }
  assert (∀ q k, k ≠ fail_key → dict_get (deref h' q) k = dict_get (deref h q) k) as Hgk.
  { intros q k Hk. destruct (decide (q = child)) as [->|Hne].
    - by rewrite Hdc, dict_get_set_ne.
    - by rewrite Hdo. }
  assert (∀ q, has_fail h' q ↔ has_fail h q ∨ q = child) as Hhf.
  { intros q. unfold has_fail. destruct (decide (q = child)) as [->|Hne].
    - rewrite Hdc, dict_get_set_eq. split; [by right|done].
    - rewrite Hdo by done. split; [by left|]. by intros [?|?]. }
  split; [split|].
  - split.
    + intros q c' Hq. rewrite Hgk by apply char_key_ne_fail.
      by apply (inv_child _ _ _ Hinv).
    + intros q Hq. rewrite Hgk by apply end_ne_fail. by apply (inv_word _ _ _ Hinv).
    + intros q k v Hg. destruct (decide (k = fail_key)) as [->|Hk].
      * destruct (decide (q = child)) as [->|Hne].
        -- rewrite Hdc, dict_get_set_eq in Hg. injection Hg as <-.
           right; left. split_and!; [done|by destruct p|done|by exists t].
        -- rewrite Hdo in Hg by done. by apply (inv_keys _ _ _ Hinv).
      * rewrite Hgk in Hg by done. by apply (inv_keys _ _ _ Hinv).
    + intros q. destruct (decide (q = child)) as [->|Hne].
      * rewrite Hdc. apply dict_set_nodup, (inv_nodup _ _ _ Hinv).
      * rewrite Hdo by done. apply (inv_nodup _ _ _ Hinv).
  - done.
  - done.
  - intros q [Hq| ->%list_elem_of_singleton]%elem_of_app; [by apply HB|done].
  - split; [done|]. apply NoDup_app. split_and!; [done| |apply NoDup_singleton].
    by intros x Hx ->%list_elem_of_singleton.
  - intros q. rewrite Hhf, Hfail, elem_of_app, list_elem_of_singleton. split.
    + intros [(? & ? & [?|?])| ->]; [by auto..|].
      split_and!; [by destruct p|done|by auto].
    + intros (? & ? & [?|[?| ->]]); [by auto..|by right].
  - intros q c' Hq Hlq. rewrite elem_of_app, list_elem_of_singleton, (Hnext q c' Hq Hlq).
    rewrite not_elem_of_cons. split.
    + intros [(? & Himp)|[-> ->]%app_inj_tail].
      * split; [done|]. intros Hqp. by apply Himp.
      * split; [done|]. intros _. by apply NoDup_cons in Hndk as [? _].
    + intros [HqA Himp]. destruct (decide (q = p ∧ c' = c)) as [[-> ->]|Hne]; [by right|].
      left. split; [done|]. intros ->. split; [|by auto]. intros [= ->]. by apply Hne.
  - apply NoDup_cons in Hndk as [_ Hndk]. split; [done|].
    intros k Hk. rewrite Hdo by done. apply Hks. by apply list_elem_of_further.
  - apply (pending_decrease nodes h h' child); [apply Hnodes; [by destruct p|done]|done| |].
    + apply Hhf. by right.
    + intros q Hq. apply Hhf. by left.
Qed.

(** Skipping the keys ['#'] and ['fail']. *)
Lemma skip_key_step d p k ks A B h :
  node_inv N W d p (k :: ks) A B h → k = end_of_word ∨ k = fail_key →
  node_inv N W d p ks A B h.
Proof.
  intros [Hinv Hcur HA HB Hnd Hfail Hnext [Hndk Hks]] Hk.
  split; [done..| |].
  - intros q c' Hq Hlq. rewrite (Hnext q c' Hq Hlq), not_elem_of_cons.
    assert ([c'] ≠ k).
    { destruct Hk as [-> | ->]; [|apply char_key_ne_fail].
      apply char_key_ne_end. by eapply hash_child. }
    split; intros [? Himp]; (split; [done|]); intros Hqp.
    + by apply Himp.
    + split; [done|by apply Himp].
  - apply NoDup_cons in Hndk as [_ Hndk]. split; [done|].
    intros k' Hk'. apply Hks. by apply list_elem_of_further.
Qed.

(** A key of a node that is neither ['#'] nor ['fail'] is an edge. *)
Lemma node_key_child h p k :
  auto_inv N W h → k ∈ (deref h p).*1 → k ≠ end_of_word → k ≠ fail_key →
  ∃ c, k = [c] ∧ c ≠ hash ∧ N (p ++ [c]).
Proof.
  intros Hinv [v Hg]%dict_keys_get Hne Hnf.
  destruct (inv_keys _ _ _ Hinv _ _ _ Hg) as [(? & _)|[(? & _)|(c & -> & ? & _ & ?)]];
    [done..|by exists c].
Qed.

Context (n : nat) (Hn : ∀ p, N p → (length p < n)%nat).

Lemma build_fail_node_inv d p A ks : ∀ B h,
  (1 ≤ d)%nat → node_inv N W d p ks A B h →
  ∃ h' B', build_fail_node n h (VRef p) ks (VRef <$> (A ++ B))
             = Ok (h', VRef <$> (A ++ B')) ∧
           node_inv N W d p [] A B' h' ∧
           (length B' + pending nodes h' ≤ length B + pending nodes h)%nat.
Proof.
  induction ks as [|k ks IH]; intros B h Hd Hinv.
  { exists h, B. split_and!; [done..|lia]. }
  cbn [build_fail_node].
  destruct (bool_decide (k = end_of_word) || bool_decide (k = fail_key)) eqn:Hskip.
  { apply IH; [done|]. eapply skip_key_step; [done|].
    apply orb_true_iff in Hskip as [?%bool_decide_eq_true|?%bool_decide_eq_true]; auto. }
  apply orb_false_iff in Hskip as [Hk1%bool_decide_eq_false Hk2%bool_decide_eq_false].
  pose proof (ni_auto _ _ _ _ _ _ _ _ Hinv) as Hauto.
  destruct (ni_cur _ _ _ _ _ _ _ _ Hinv) as (HNp & Hlp & HpA).
  destruct (node_key_child h p k Hauto) as (c & -> & Hc & Hchild); [|done..|].
  { apply (ni_keys _ _ _ _ _ _ _ _ Hinv), list_elem_of_here. }
  rewrite (py_getitem_child h p c Hauto Hchild), bind_Ok.
  assert (∀ q, q ≠ [] → N q → (length q ≤ d)%nat → has_fail h q) as Hlow.
  { intros q ? ? ?. apply (ni_fail _ _ _ _ _ _ _ _ Hinv). auto. }
  destruct (has_fail_lps h p Hauto) as (f & Hgf & Hlps).
  { apply Hlow; [|done|lia]. intros ->. simpl in Hlp. lia. }
  rewrite (py_getitem_Some h p fail_key _ Hgf), bind_Ok.
  pose proof (is_lps_length _ _ _ Hlps) as Hlf.
  destruct (fail_walk_spec h c d Hauto Hc Hlow n f)
    as (g & -> & Hsg & HNg & Hex & Hmax);
    [by destruct Hlps as (_ & _ & ? & _)|lia|by apply Hn; destruct Hlps as (_ & _ & ? & _)|].
  rewrite bind_Ok.
  assert (∃ t, (if py_in h [c] (VRef g)
                then py_getitem h (VRef g) [c]
                     ≫= λ target, py_setitem h (VRef (p ++ [c])) fail_key target
                else py_setitem h (VRef (p ++ [c])) fail_key root)
               = Ok (<[p ++ [c] := dict_set (deref h (p ++ [c])) fail_key (VRef t)]> h)
               ∧ is_lps N (p ++ [c]) t) as (t & -> & Ht).
  { destruct (py_in h [c] (VRef g)) eqn:Hin.
    - apply (py_in_child h g c Hauto Hc) in Hin.
      rewrite (py_getitem_child h g c Hauto Hin), bind_Ok.
      exists (g ++ [c]). split; [done|]. by eapply fail_target_child.
    - assert (¬ N (g ++ [c])) as Hng.
      { intros Hg%(py_in_child h g c Hauto Hc). congruence. }
      destruct Hex as [->|?]; [|done].
      exists []. split; [done|]. eapply fail_target_root; [done..|].
      intros g' ? ? ?. by apply (Hmax g'). }
  rewrite bind_Ok.
  destruct (set_fail_step d p c ks A B h t Hinv Hchild Ht) as [Hinv' Hpend].
  destruct (IH (B ++ [p ++ [c]]) _ Hd Hinv') as (h' & B' & Hrun & Hfin & Hm).
  exists h', B'. split_and!; [|done|].
  - rewrite <- Hrun. f_equal. by rewrite !fmap_app, <- app_assoc.
  - rewrite length_app in Hm. simpl in Hm. lia.
Qed.

Lemma build_fail_root_inv ks : ∀ B h,
  node_inv N W 0 [] ks [] B h →
  ∃ h' B', build_fail_root h ks (VRef <$> B) = Ok (h', VRef <$> B') ∧
           node_inv N W 0 [] [] [] B' h' ∧
           (length B' + pending nodes h' ≤ length B + pending nodes h)%nat.
Proof.
  induction ks as [|k ks IH]; intros B h Hinv.
  { exists h, B. split_and!; [done..|lia]. }
  cbn [build_fail_root].
  destruct (bool_decide (k ≠ end_of_word)) eqn:Hskip.
  2:{ apply bool_decide_eq_false in Hskip. apply IH.
      eapply skip_key_step; [done|]. left. by destruct (decide (k = end_of_word)). }
  apply bool_decide_eq_true in Hskip.
  pose proof (ni_auto _ _ _ _ _ _ _ _ Hinv) as Hauto.
  assert (k ∈ (deref h []).*1) as Hkin
    by apply (ni_keys _ _ _ _ _ _ _ _ Hinv), list_elem_of_here.
  assert (k ≠ fail_key) as Hkf.
  { intros ->. apply dict_keys_get in Hkin as [v Hg].
    destruct (inv_keys _ _ _ Hauto _ _ _ Hg) as [(? & _)|[(_ & ? & _)|(c & ? & _)]]; [|done|].
    - by apply end_ne_fail.
    - by apply (char_key_ne_fail c). }
  destruct (node_key_child h [] k Hauto) as (c & -> & Hc & Hchild); [done..|].
  pose proof (py_getitem_child h [] c Hauto Hchild) as Hgc. cbn [app] in Hgc.
  unfold root. rewrite Hgc, bind_Ok. cbn [py_setitem]. rewrite bind_Ok.
  destruct (set_fail_step 0 [] c ks [] B h [] Hinv Hchild) as [Hinv' Hpend].
  { apply is_lps_single, HN. }
  cbn [app] in Hinv', Hpend.
  pose proof (py_getitem_child _ [] c (ni_auto _ _ _ _ _ _ _ _ Hinv') Hchild) as Hgc'.
  cbn [app] in Hgc'. rewrite Hgc', bind_Ok.
  destruct (IH (B ++ [[c]]) _ Hinv') as (h' & B' & Hrun & Hfin & Hm).
  exists h', B'. split_and!; [|done|].
  - rewrite <- Hrun. f_equal. by rewrite !fmap_app.
  - rewrite length_app in Hm. simpl in Hm. lia.
Qed.

Lemma paths_prefix_closed p q : N p → q `prefix_of` p → N q.
Proof.
  intros Hp [k ->]. induction k as [|x k IH] using rev_ind.
  - by rewrite app_nil_r in Hp.
  - apply IH. rewrite app_assoc in Hp. by eapply paths_prefix.
Qed.

Lemma node_to_bfs d p A B h : node_inv N W d p [] A B h → bfs_inv N W d A B h.
Proof.
  intros [Hinv Hcur HA HB Hnd Hfail Hnext Hks]. split; [done..|].
  intros q c Hq Hlq. rewrite (Hnext q c Hq Hlq). split; [by intros [? _]|].
  intros ?. split; [done|]. intros _. apply not_elem_of_nil.
Qed.

Lemma bfs_to_node d p A B h :
  bfs_inv N W d (p :: A) B h → node_inv N W d p (deref h p).*1 A B h.
Proof.
  intros [Hinv HA HB [HndA HndB] Hfail Hnext].
  apply NoDup_cons in HndA as [HpA HndA].
  destruct (HA p) as [HNp Hlp]; [apply list_elem_of_here|].
  split; [done|done| |done|done|done| |].
  - intros q Hq. apply HA. by apply list_elem_of_further.
  - intros q c Hq Hlq. rewrite (Hnext q c Hq Hlq), not_elem_of_cons. split.
    + intros [? ?]. split; [done|]. by intros ->.
    + intros [HqA Himp]. split; [|done]. intros ->. apply Himp; [done|].
      eapply dict_get_Some_keys. by apply (inv_child _ _ _ Hinv).
  - split; [apply (inv_nodup _ _ _ Hinv)|done].
Qed.

(** When the nodes of depth [d] are done, the queue holds all the nodes
    of depth [d + 1]. *)
Lemma bfs_regroup d B h : bfs_inv N W d [] B h → bfs_inv N W (S d) B [] h.
Proof.
  intros [Hinv HA HB [HndA HndB] Hfail Hnext].
  assert (∀ q, N q → length q = S d → q ∈ B) as Hall.
  { intros q Hq Hlq. destruct q as [|c q0 _] using rev_ind; [done|].
    rewrite length_app in Hlq. simpl in Hlq.
    apply Hnext; [done|lia|apply not_elem_of_nil]. }
  split; [done|done| | | |].
  - intros q Hq. by apply elem_of_nil in Hq.
  - split; [done|constructor].
  - intros q. rewrite Hfail. split.
    + intros (? & ? & [?|Hq]).
      * split_and!; [done..|]. left. lia.
      * split_and!; [done..|]. left. apply HB in Hq as [_ ->]. done.
    + intros (? & ? & [?|Hq]); [|by apply elem_of_nil in Hq].
      split_and!; [done..|].
      destruct (decide (length q = S d)); [right; by apply Hall|left; lia].
  - intros q c Hq Hlq. split; [by intros ?%elem_of_nil|].
    intros HnB. exfalso. apply HnB, Hall; [|done]. by eapply paths_prefix.
Qed.

Lemma bfs_done d h : bfs_inv N W d [] [] h → compiled_inv N W h.
Proof.
  intros [Hinv HA HB Hnd Hfail Hnext]. split; [done|].
  intros p Hp HNp. apply Hfail. split_and!; [done..|]. left.
  destruct (decide (length p ≤ d)%nat) as [|Hgt]; [done|]. exfalso.
  assert (is_Some (p !! d)) as [c Hc] by (apply lookup_lt_is_Some; lia).
  assert (N (take d p ++ [c])) as Hq.
  { apply (paths_prefix_closed p); [done|].
    exists (drop (S d) p). rewrite <- app_assoc. simpl.
    symmetry. by apply take_drop_middle. }
  apply Hnext in Hq as [_ Hq]; [|rewrite length_take; lia].
  eapply elem_of_nil, Hq, not_elem_of_nil.
Qed.

Lemma build_fail_loop_inv k : ∀ d A B h,
  (1 ≤ d)%nat → bfs_inv N W d A B h →
  (length (A ++ B) + pending nodes h < k)%nat →
  ∃ h', build_fail_loop n k h (VRef <$> (A ++ B)) = Ok h' ∧ compiled_inv N W h'.
Proof.
  induction k as [|k IH]; intros d A B h Hd Hinv Hk; [lia|].
  assert (∃ d' p A' B', (1 ≤ d')%nat ∧ bfs_inv N W d' (p :: A') B' h
                        ∧ A ++ B = (p :: A') ++ B'
          ∨ A ++ B = [] ∧ compiled_inv N W h) as Hcase.
  { destruct A as [|p A'].
    - destruct B as [|p B'].
      + exists d, [], [], []. right. split; [done|]. by eapply bfs_done.
      + exists (S d), p, B', []. left. split_and!; [lia|by apply bfs_regroup|].
        by rewrite app_nil_r.
    - exists d, p, A', B. by left. }
  destruct Hcase as (d' & p & A' & B' & [(Hd' & Hinv' & Heq)|[Heq Hdone]]).
  2:{ rewrite Heq. exists h. done. }
  rewrite Heq in Hk |- *. cbn [build_fail_loop fmap list_fmap app].
  destruct (build_fail_node_inv d' p A' _ B' h Hd' (bfs_to_node _ _ _ _ _ Hinv'))
    as (h1 & B1 & Hrun & Hfin & Hm).
  unfold py_keys at 1. rewrite Hrun, bind_Ok.
  apply (IH d'); [done|by eapply node_to_bfs|].
  rewrite length_app in *. simpl in Hk. lia.
Qed.

(** [build_fail] on a trie writes every failure link. *)
Lemma build_fail_inv h :
  trie_inv N W h → (length nodes < n)%nat →
  ∃ h', build_fail n h = Ok h' ∧ compiled_inv N W h'.
Proof.
  intros [Hinv Hnf] Hlen. unfold build_fail.
  assert (node_inv N W 0 [] (deref h []).*1 [] [] h) as Hroot.
  { split; [done| | | | | | |].
    - split_and!; [apply HN|done|apply not_elem_of_nil].
    - by intros q ?%elem_of_nil.
    - by intros q ?%elem_of_nil.
    - split; constructor.
    - intros q. unfold has_fail. rewrite Hnf. split; [done|].
      intros (Hq & _ & [Hl|?%elem_of_nil]); [|done]. destruct q; simpl in *; [done|lia].
    - intros q c Hq Hlq. destruct q; [|done]. split; [by intros ?%elem_of_nil|].
      intros [_ Himp]. exfalso. apply Himp; [done|].
      eapply dict_get_Some_keys. by apply (inv_child _ _ _ Hinv []).
    - split; [apply (inv_nodup _ _ _ Hinv)|done]. }
  destruct (build_fail_root_inv _ [] h Hroot) as (h1 & B1 & Hrun & Hfin & Hm).
  unfold py_keys, root. cbn [fmap list_fmap] in Hrun. rewrite Hrun, bind_Ok.
  apply node_to_bfs, bfs_regroup in Hfin.
  destruct (build_fail_loop_inv n 1 B1 [] h1) as (h' & Hloop & Hdone); [done..| |].
  { rewrite app_nil_r. simpl in Hm.
    assert (pending nodes h ≤ length nodes)%nat by apply length_filter. lia. }
  rewrite app_nil_r in Hloop. eauto.
Qed.
End build_fail.

Lemma trie_nodes_length ws : length (trie_nodes ws) = total_len ws.
Proof.
  unfold trie_nodes, total_len. induction ws as [|w ws IH]; [done|].
  rewrite fmap_cons. simpl. rewrite !length_app, IH.
  unfold nonempty_prefixes. by rewrite length_fmap, length_seq.
Qed.

Lemma trie_nodes_elem ws p : p ≠ [] → node_of ws p → p ∈ trie_nodes ws.
Proof.
  intros Hne [->|(w & Hw & [k ->])]; [done|].
  assert (p ∈ nonempty_prefixes (p ++ k)) as Hp.
  { unfold nonempty_prefixes. apply list_elem_of_fmap.
    destruct p as [|c p]; [done|]. exists (length p). split.
    - change (S (length p)) with (length (c :: p)). by rewrite take_app_length.
    - apply elem_of_seq. simpl. rewrite length_app. lia. }
  unfold trie_nodes. induction Hw as [w ws|w w' ws Hw IH];
    rewrite fmap_cons; simpl; apply elem_of_app; auto.
Qed.

Lemma node_of_length ws p : node_of ws p → (length p ≤ total_len ws)%nat.
Proof.
  intros [->|(w & Hw & Hp)]; [simpl; lia|].
  apply prefix_length in Hp. etrans; [exact Hp|].
  unfold total_len. clear Hp. induction Hw as [w ws|w w' ws Hw IH]; simpl;
    rewrite length_app; lia.
Qed.

Lemma compiled_inv_proper N N' W W' h :
  (∀ p, N p ↔ N' p) → (∀ p, W p ↔ W' p) → compiled_inv N W h → compiled_inv N' W' h.
Proof.
  intros HN HW [H Hf]. split; [by eapply auto_inv_proper|].
  intros p ? ?%HN. by apply Hf.
Qed.

(** Compilation succeeds with enough fuel, and the automaton it yields is
    the one of the set of words. *)
Lemma compile_inv ws n :
  Forall hashfree ws → (total_len ws < n)%nat →
  ∃ h, compile n ws = Ok h ∧
    ∀ ws', (∀ w, w ∈ ws' ↔ w ∈ ws) → compiled_inv (node_of ws') (.∈ ws') h.
Proof.
  intros Hfree Hn. unfold compile.
  destruct (add_words_new_inv ws Hfree) as (h0 & -> & Hinv0).
  rewrite bind_Ok.
  destruct (build_fail_inv (node_of ws) (.∈ ws) (node_of_paths_ok ws Hfree)
              (trie_nodes ws) (trie_nodes_elem ws) n) with (h := h0)
    as (h & Hb & Hinv).
  - intros p Hp%node_of_length. lia.
  - by apply Hinv0.
  - by rewrite trie_nodes_length.
  - exists h. split; [done|]. intros ws' Hws'.
    eapply compiled_inv_proper; [| |exact Hinv].
    + intros p. by apply node_of_ext.
    + intros p. simpl. by rewrite Hws'.
Qed.

(** *** [search] reads the store through lookups only *)

Section agree.
Context (P : Prop) (h1 h2 : gmap addr dict) (Hag : agree_except P h1 h2).

Lemma agree_get a k :
  (P → a ≠ [] ∨ k ≠ end_of_word) →
  dict_get (deref h1 a) k = dict_get (deref h2 a) k.
Proof.
  intros HP. destruct (Hag a k) as [(Hp & -> & ->)|?]; [|done].
  destruct (HP Hp); done.
Qed.

Lemma py_in_agree k x :
  (P → py_ne_root x = true ∨ k ≠ end_of_word) →
  py_in h1 k x = py_in h2 k x.
Proof.
  intros HP. destruct x as [s|a]; [done|]. unfold py_in, dict_has.
  rewrite agree_get; [done|]. intros [Hx|Hk]%HP; [|by right].
  left. by destruct a.
Qed.

Lemma py_get_fail_agree x : py_get_fail h1 x = py_get_fail h2 x.
Proof.
  destruct x as [s|a]; [done|]. unfold py_get_fail.
  rewrite agree_get; [done|]. intros _. right. intros Heq. by apply end_ne_fail.
Qed.

Lemma py_getitem_agree x k :
  (P → k ≠ end_of_word) → py_getitem h1 x k = py_getitem h2 x k.
Proof.
  intros HP. destruct x as [s|a]; [done|]. unfold py_getitem.
  rewrite agree_get; [done|]. auto.
Qed.

Lemma search_walk_agree n k x :
  (P → k ≠ end_of_word) → search_walk n h1 k x = search_walk n h2 k x.
Proof.
  intros HP. revert x. induction n as [|n IH]; intros x; [done|].
  cbn [search_walk]. rewrite py_in_agree by auto. rewrite py_get_fail_agree.
  destruct (_ && _); [|done]. destruct (py_get_fail h2 x); simpl; auto.
Qed.

Lemma get_word_length_agree n x :
  py_ne_root x = true → _get_word_length n h1 x = _get_word_length n h2 x.
Proof.
  unfold _get_word_length. generalize 0. revert x.
  induction n as [|n IH]; intros x l Hx; [done|].
  cbn [get_word_length_loop]. rewrite py_in_agree by auto.
  rewrite py_get_fail_agree. destruct (_ && _); [|done].
  destruct (py_get_fail h2 x) as [y| |]; simpl; [|done..].
  destruct (py_ne_root y) eqn:Hy; [by apply IH|].
  destruct n; [done|]. simpl. by rewrite Hy.
Qed.

Lemma search_report_agree n k text i temp rs :
  search_report n k h1 text i temp rs = search_report n k h2 text i temp rs.
Proof.
  revert temp rs. induction k as [|k IH]; intros temp rs; [done|].
  cbn [search_report]. destruct (py_ne_root temp) eqn:Ht; [|done].
  rewrite py_in_agree by auto. rewrite get_word_length_agree by done.
  rewrite py_get_fail_agree.
  destruct (if py_in h2 end_of_word temp then _ else _); simpl; [|done..].
  destruct (py_get_fail h2 temp); simpl; auto.
Qed.

Lemma search_loop_agree n text i rest cur rs :
  (P → hashfree rest) →
  search_loop n h1 text i rest cur rs = search_loop n h2 text i rest cur rs.
Proof.
  revert i cur rs. induction rest as [|c rest IH]; intros i cur rs HP; [done|].
  assert (P → [c] ≠ end_of_word) as Hc.
  { intros Hf%HP. apply char_key_ne_end. intros ->. apply Hf, list_elem_of_here. }
  assert (P → hashfree rest) as Hrest.
  { intros Hf%HP Hin. apply Hf. by apply list_elem_of_further. }
  cbn [search_loop]. rewrite search_walk_agree by done.
  destruct (search_walk n h2 [c] cur) as [cur1| |]; simpl; [|done..].
  rewrite py_in_agree by auto. destruct (py_in h2 [c] cur1); [|by apply IH].
  rewrite py_getitem_agree by done.
  destruct (py_getitem h2 cur1 [c]) as [cur2| |]; simpl; [|done..].
  rewrite search_report_agree.
  destruct (search_report n n h2 text i cur2 rs); simpl; auto.
Qed.

Lemma search_agree n text :
  (P → hashfree text) → search n h1 text = search n h2 text.
Proof. apply search_loop_agree. Qed.
End agree.

(** Two compiled automata for the same paths and, the root apart, the same
    words answer every lookup alike. *)
Lemma compiled_lookup N W1 W2 (P : Prop) h1 h2 a k v :
  paths_ok N → compiled_inv N W1 h1 → compiled_inv N W2 h2 →
  (∀ p, (P ∧ p = []) ∨ (W1 p → W2 p)) →
  dict_get (deref h1 a) k = Some v →
  (P ∧ a = [] ∧ k = end_of_word) ∨ dict_get (deref h2 a) k = Some v.
Proof.
  intros HN [Hinv1 Hf1] [Hinv2 Hf2] HW Hg.
  destruct (inv_keys _ _ _ Hinv1 _ _ _ Hg)
    as [(-> & -> & Hw)|[(-> & Hne & Hp & q & -> & Hq)|(c & -> & Hc & -> & Hp)]].
  - destruct (HW a) as [[? ->]|HW12]; [by left|]. right.
    by apply (inv_word _ _ _ Hinv2), HW12.
  - right. destruct (has_fail_lps N W2 h2 a Hinv2) as (q' & -> & Hq'); [by apply Hf2|].
    by rewrite (is_lps_unique N a q q').
  - right. by apply (inv_child _ _ _ Hinv2).
Qed.

Lemma compiled_agree N W1 W2 (P : Prop) h1 h2 :
  paths_ok N → compiled_inv N W1 h1 → compiled_inv N W2 h2 →
  (∀ p, (P ∧ p = []) ∨ (W1 p ↔ W2 p)) →
  agree_except P h1 h2.
Proof.
  intros HN H1 H2 HW a k.
  destruct (dict_get (deref h1 a) k) as [v|] eqn:Hg1.
  - destruct (compiled_lookup N W1 W2 P h1 h2 a k v) as [?| ->]; auto.
    intros p. destruct (HW p) as [?|[? _]]; auto.
  - destruct (dict_get (deref h2 a) k) as [v|] eqn:Hg2; [|by right].
    destruct (compiled_lookup N W2 W1 P h2 h1 a k v) as [?|Hg]; auto.
    + intros p. destruct (HW p) as [?|[_ ?]]; auto.
    + right. congruence.
Qed.

(** *** [search] returns *)

Section search_total.
Context (N W : addr → Prop) (HN : paths_ok N).
Context (h : gmap addr dict) (Hinv : auto_inv N W h).

(** A missing failure link reads as the root; a present one leads to a
    shorter path. *)
Lemma py_get_fail_node p :
  N p → ∃ f, py_get_fail h (VRef p) = Ok (VRef f) ∧ N f ∧
             (p ≠ [] → (length f < length p)%nat).
Proof.
  intros Hp. unfold py_get_fail.
  destruct (dict_get (deref h p) fail_key) as [v|] eqn:Hg.
  - destruct (has_fail_lps N W h p Hinv) as (q & Hq & Hlps).
    { unfold has_fail. by rewrite Hg. }
    rewrite Hg in Hq. injection Hq as ->. exists q. split_and!; [done| |].
    + by destruct Hlps as (_ & _ & ? & _).
    + intros _. by eapply is_lps_length.
  - exists []. split_and!; [done|apply HN|]. intros ?. destruct p; simpl; [done|lia].
Qed.

Lemma search_walk_node n c p :
  c ≠ hash → N p → (length p < n)%nat →
  ∃ g, search_walk n h [c] (VRef p) = Ok (VRef g) ∧ N g.
Proof.
  intros Hc. revert p. induction n as [|n IH]; intros p Hp Hn; [lia|].
  cbn [search_walk].
  destruct (py_ne_root (VRef p) && negb (py_in h [c] (VRef p))) eqn:Hcond; [|by eauto].
  apply andb_true_iff in Hcond as [Hroot _].
  destruct (py_get_fail_node p Hp) as (f & -> & Hf & Hlen). rewrite bind_Ok.
  apply IH; [done|]. assert (p ≠ []) as Hne by (by destruct p).
  specialize (Hlen Hne). lia.
Qed.

Lemma search_report_node n k text i p rs :
  N p → (length p < k)%nat → (0 < n)%nat →
  ∃ rs', search_report n k h text i (VRef p) rs = Ok rs'.
Proof.
  intros Hp Hk Hn. revert p rs Hp Hk.
  induction k as [|k IH]; intros p rs Hp Hk; [lia|].
  cbn [search_report]. destruct (py_ne_root (VRef p)) eqn:Hroot; [|by eauto].
  assert (∃ rs1, (if py_in h end_of_word (VRef p)
                  then _get_word_length n h (VRef p)
                       ≫= λ word_length,
                         Ok (rs ++ [(i - word_length + 1, i + 1,
                                      py_slice text (i - word_length + 1) (i + 1))])
                  else Ok rs) = Ok rs1) as (rs1 & ->).
  { destruct (py_in h end_of_word (VRef p)) eqn:Hin; [|by eauto].
    destruct n as [|n]; [lia|]. rewrite get_word_length_marked_Ok by done.
    rewrite bind_Ok. eauto. }
  rewrite bind_Ok. destruct (py_get_fail_node p Hp) as (f & -> & Hf & Hlen).
  rewrite bind_Ok. apply IH; [done|].
  assert (p ≠ []) as Hne by (by destruct p). specialize (Hlen Hne). lia.
Qed.

Lemma search_loop_node n text i rest p rs :
  hashfree rest → N p → (∀ q, N q → (length q < n)%nat) →
  ∃ rs', search_loop n h text i rest (VRef p) rs = Ok rs'.
Proof.
  intros Hfree Hp Hn. revert i p rs Hp.
  induction rest as [|c rest IH]; intros i p rs Hp; [by eexists|].
  assert (c ≠ hash ∧ hashfree rest) as [Hc Hrest].
  { unfold hashfree in *. rewrite not_elem_of_cons in Hfree.
    destruct Hfree. split; [congruence|done]. }
  cbn [search_loop].
  destruct (search_walk_node n c p Hc Hp (Hn p Hp)) as (g & -> & Hg).
  rewrite bind_Ok. destruct (py_in h [c] (VRef g)) eqn:Hin; [|by apply IH].
  apply (py_in_child N W h g c Hinv Hc) in Hin.
  rewrite (py_getitem_child N W h g c Hinv Hin), bind_Ok.
  destruct (search_report_node n n text i (g ++ [c]) rs Hin) as (rs1 & ->);
    [by apply Hn|specialize (Hn _ Hp); lia|].
  rewrite bind_Ok. by apply IH.
Qed.

(** On a text without ['#'], [search] returns a list of matches. *)
Lemma search_total n text :
  hashfree text → (∀ q, N q → (length q < n)%nat) →
  ∃ ms, search n h text = Ok ms.
Proof. intros Hfree Hn. apply search_loop_node; [done|apply HN|done]. Qed.

(** The paths of the trie are the key sequences that lead from the root
    to a dict. *)
Lemma py_walk_node q p a :
  N q → py_walk h (VRef q) p = Some (VRef a) → a = q ++ p ∧ N (q ++ p).
Proof.
  revert q. induction p as [|c p IH]; intros q Hq; simpl.
  { intros [= <-]. by rewrite app_nil_r. }
  destruct (dict_get (deref h q) [c]) as [v|] eqn:Hg; [|done].
  destruct (inv_keys _ _ _ Hinv _ _ _ Hg)
    as [(_ & -> & _)|[(He & _)|(c' & [= <-] & _ & -> & Hqc)]].
  - by destruct p.
  - by apply char_key_ne_fail in He.
  - intros Hw. apply IH in Hw; [|done]. by rewrite <- app_assoc in Hw.
Qed.

Lemma py_walk_path q p : N (q ++ p) → py_walk h (VRef q) p = Some (VRef (q ++ p)).
Proof.
  revert q. induction p as [|c p IH]; intros q Hqp; simpl.
  { by rewrite app_nil_r. }
  assert (N (q ++ [c])) as Hqc.
  { apply (paths_prefix_closed N HN (q ++ c :: p)); [done|].
    by apply prefix_app, prefix_cons, prefix_nil. }
  rewrite (inv_child _ _ _ Hinv _ _ Hqc).
  rewrite (IH (q ++ [c])); by rewrite <- app_assoc.
Qed.
End search_total.

(** ** [build_ac_automaton] *)

Lemma add_words_app ws1 ws2 h :
  add_words (ws1 ++ ws2) h = add_words ws1 h ≫= add_words ws2.
Proof.
  revert h. induction ws1 as [|w ws1 IH]; intros h; [done|].
  simpl. destruct (add_word h w); simpl; auto.
Qed.

Lemma add_entities_eq label es h m :
  add_entities label es h m = add_words es h ≫= λ h', Ok (h', label_all label es m).
Proof.
  revert h m. induction es as [|e es IH]; intros h m; [done|].
  simpl. destruct (add_word h e); simpl; auto.
Qed.

Lemma build_ac_automaton_eq n loc per org :
  build_ac_automaton n loc per org
  = compile n (loc ++ per ++ org) ≫= λ h,
      Ok {| ac_automaton := h;
            entity_type_mapping :=
              label_all (str "ORG") org
                (label_all (str "PER") per (label_all (str "LOC") loc ∅)) |}.
Proof.
  unfold build_ac_automaton, compile.
  rewrite add_words_app, add_entities_eq.
  destruct (add_words loc new_automaton) as [h1| |]; [|reflexivity..].
  rewrite !bind_Ok, add_words_app, add_entities_eq.
  destruct (add_words per h1) as [h2| |]; [|reflexivity..].
  rewrite !bind_Ok, add_entities_eq.
  destruct (add_words org h2) as [h3| |]; [|reflexivity..].
  rewrite !bind_Ok. by destruct (build_fail n h3).
Qed.

Lemma label_all_lookup label es m k :
  label_all label es m !! k = if decide (k ∈ es) then Some label else m !! k.
Proof.
  unfold label_all. revert m. induction es as [|e es IH]; intros m; cbn [foldl].
  { destruct (decide (k ∈ [])) as [Hin|]; [|done]. by apply elem_of_nil in Hin. }
  rewrite IH. destruct (decide (k ∈ es)) as [Hin|Hnin].
  - rewrite decide_True; [done|by apply list_elem_of_further].
  - destruct (decide (k = e)) as [->|Hne].
    + rewrite decide_True by apply list_elem_of_here. apply lookup_insert_eq.
    + rewrite decide_False by (rewrite elem_of_cons; tauto).
      by apply lookup_insert_ne.
Qed.

Lemma label_all_perm label es es' m :
  es ≡ₚ es' → label_all label es m = label_all label es' m.
Proof.
  intros Hp. apply map_eq. intros k. rewrite !label_all_lookup.
  destruct (decide (k ∈ es)) as [Hin|Hnin].
  - rewrite decide_True; [done|by rewrite <- Hp].
  - rewrite decide_False; [done|by rewrite <- Hp].
Qed.

Lemma total_len_perm ws ws' : ws ≡ₚ ws' → total_len ws = total_len ws'.
Proof.
  unfold total_len. induction 1 as [|w ws ws' _ IH|w1 w2 ws|ws1 ws2 ws3 _ IH1 _ IH2];
    simpl; rewrite ?length_app in *; lia.
Qed.

Lemma recognize_entities_Ok n ner text ms :
  search n (ac_automaton ner) text = Ok ms →
  recognize_entities n ner text
  = Ok (resolve (entity_type_mapping ner) (list_sort ms) (-1) []).
Proof. intros H. unfold recognize_entities. by rewrite H. Qed.

Lemma recognize_entities_inv n ner text es :
  recognize_entities n ner text = Ok es →
  ∃ ms, search n (ac_automaton ner) text = Ok ms ∧
        es = resolve (entity_type_mapping ner) (list_sort ms) (-1) [].
Proof.
  unfold recognize_entities. intros (ms & Hs & [= <-])%bind_Ok_inv. eauto.
Qed.

(** All the entities that [recognize_entities] returns are empty spans. *)
Lemma recognize_entities_empty n ner text es e :
  recognize_entities n ner text = Ok es → e ∈ es →
  e_text e = [] ∧ e_start e = e_end e ∧ 1 ≤ e_start e ≤ Z.of_nat (length text).
Proof.
  intros (ms & Hs & ->)%recognize_entities_inv He.
  revert e He. apply Forall_forall. apply resolve_Forall; [|constructor].
  apply Forall_forall. intros m Hm ty. apply (proj1 (list_sort_elem _ _)) in Hm.
  destruct (search_matches_empty _ _ _ _ _ Hs Hm) as (j & Hj & ->). simpl.
  split_and!; [done|done|lia..].
Qed.

(** *** The failure chain ends at the root *)

Lemma py_get_fail_root N W h : auto_inv N W h → py_get_fail h root = Ok root.
Proof.
  intros Hinv. unfold py_get_fail, root.
  destruct (dict_get (deref h []) fail_key) as [v|] eqn:Hg; [|done].
  destruct (inv_keys _ _ _ Hinv _ _ _ Hg) as [(He & _)|[(_ & ? & _)|(c & He & _)]]; [|done|].
  - symmetry in He. by apply end_ne_fail in He.
  - symmetry in He. by apply char_key_ne_fail in He.
Qed.

Lemma fail_iter_root N W h k p :
  paths_ok N → auto_inv N W h → N p → (length p ≤ k)%nat →
  fail_iter h k (VRef p) = Ok root.
Proof.
  intros HN Hinv. revert p. induction k as [|k IH]; intros p Hp Hk.
  { destruct p; [done|simpl in Hk; lia]. }
  cbn [fail_iter]. destruct p as [|c p].
  - fold root. rewrite (py_get_fail_root N W h Hinv), bind_Ok.
    unfold root. apply IH; [apply HN|simpl; lia].
  - destruct (py_get_fail_node N W HN h Hinv (c :: p) Hp) as (f & -> & Hf & Hlen).
    rewrite bind_Ok. apply IH; [done|].
    assert (c :: p ≠ []) as Hne by done. specialize (Hlen Hne). simpl in *. lia.
Qed.

(** ** What [search] reports *)

Lemma search_walk_fail_walk n h k x : search_walk n h k x = fail_walk n h k x.
Proof.
  revert x. induction n as [|n IH]; intros x; [done|].
  cbn [search_walk fail_walk]. destruct (_ && _); [|done].
  destruct (py_get_fail h x); simpl; auto.
Qed.

Lemma is_ls_nil N : N [] → is_ls N [] [].
Proof. intros HN. split_and!; [done..|]. by intros q ->%suffix_nil_inv. Qed.

Lemma is_ls_suffix N s p q : is_ls N s p → q `suffix_of` s → N q → q `suffix_of` p.
Proof.
  intros (Hp & _ & Hmax) Hq HNq. apply (suffix_of_shorter _ _ s); [done..|]. by apply Hmax.
Qed.

Section search_spec.
Context (N W : addr → Prop) (HN : paths_ok N) (HW : ∀ p, W p → N p).
Context (h : gmap addr dict) (Hinv : compiled_inv N W h).
Context (n : nat) (Hn : ∀ q, N q → (length q < n)%nat).

(** A node holds the end marker exactly when its path is a word. *)
Lemma py_in_marked p : py_in h end_of_word (VRef p) = true ↔ W p.
Proof.
  destruct Hinv as [Hauto _]. unfold py_in, dict_has. split.
  - destruct (dict_get (deref h p) end_of_word) as [v|] eqn:Hg; [|done]. intros _.
    destruct (inv_keys _ _ _ Hauto _ _ _ Hg)
      as [(_ & _ & ?)|[(He & _)|(c & He & Hc & _)]]; [done| |].
    + by apply end_ne_fail in He.
    + rewrite end_of_word_eq in He. by injection He as <-.
  - intros Hp. by rewrite (inv_word _ _ _ Hauto _ Hp).
Qed.

(** Lines 61-67: from the longest suffix of [s] that is a path to the
    longest suffix of [s ++ [c]] that is one. *)
Lemma search_step s p c :
  c ≠ hash → is_ls N s p →
  ∃ g p', search_walk n h [c] (VRef p) = Ok (VRef g) ∧ is_ls N (s ++ [c]) p' ∧
    ((py_in h [c] (VRef g) = true ∧ p' = g ++ [c] ∧
      py_getitem h (VRef g) [c] = Ok (VRef p'))
     ∨ (py_in h [c] (VRef g) = false ∧ p' = [] ∧ g = [])).
Proof.
  intros Hc (Hsp & HNp & Hmax). destruct Hinv as [Hauto Hfail].
  destruct (fail_walk_spec N W h c n Hauto Hc) with (n := n) (f := p)
    as (g & Hwalk & Hsg & HNg & Hex & Hgmax); [|done|by apply Nat.lt_le_incl, Hn|by apply Hn|].
  { intros q ? ? _. by apply Hfail. }
  assert (∀ q, q `suffix_of` s ++ [c] → N q →
               q = [] ∨ ∃ q0, q = q0 ++ [c] ∧ (length q0 ≤ length g)%nat) as Hsuf.
  { intros q Hq HNq. destruct (suffix_snoc_cases _ _ _ Hq) as [->|(q0 & -> & Hq0)]; [by left|].
    right. exists q0. split; [done|]. assert (N q0) by (by eapply paths_prefix).
    apply Hgmax; [|done..]. apply (suffix_of_shorter _ _ s); [done..|]. by apply Hmax. }
  rewrite search_walk_fail_walk, Hwalk.
  destruct (py_in h [c] (VRef g)) eqn:Hin.
  - apply (py_in_child N W h g c Hauto Hc) in Hin as HNgc.
    exists g, (g ++ [c]). split; [done|]. split.
    + split_and!; [apply suffix_snoc; by etrans|done|].
      intros q Hq HNq. destruct (Hsuf q Hq HNq) as [->|(q0 & -> & Hl)]; [simpl; lia|].
      rewrite !length_app. simpl. lia.
    + left. split_and!; [done..|]. by apply (py_getitem_child N W).
  - assert (¬ N (g ++ [c])) as HnN.
    { intros HNgc%(py_in_child N W h g c Hauto Hc). congruence. }
    destruct Hex as [->|?]; [|done]. exists [], []. split; [done|]. split; [|by right].
    split_and!; [apply suffix_nil|apply HN|].
    intros q Hq HNq. destruct (Hsuf q Hq HNq) as [->|(q0 & -> & Hl)]; [done|].
    destruct q0; [done|simpl in Hl; lia].
Qed.

(** Lines 70-77: one match for every word that is a suffix of the path of
    the node, the longest first. *)
Lemma search_report_spec text i k p rs :
  N p → (length p < k)%nat →
  ∃ L, search_report n k h text i (VRef p) rs
       = Ok (rs ++ replicate (length L) (i + 1, i + 1, [])) ∧
       NoDup L ∧ ∀ q, q ∈ L ↔ W q ∧ q ≠ [] ∧ q `suffix_of` p.
Proof.
  destruct Hinv as [Hauto Hfail].
  revert p rs. induction k as [|k IH]; intros p rs Hp Hk; [lia|].
  cbn [search_report]. destruct p as [|c0 p0].
  { exists []. cbn [py_ne_root replicate length]. rewrite app_nil_r. split_and!; [done|constructor|].
    intros q. split; [by intros ?%elem_of_nil|]. intros (_ & Hq & ->%suffix_nil_inv). done. }
  set (p := c0 :: p0) in *. cbn [py_ne_root].
  destruct (has_fail_lps N W h p Hauto) as (f & Hgf & Hlps); [by apply Hfail|].
  pose proof (is_lps_length _ _ _ Hlps) as Hlf.
  assert (py_get_fail h (VRef p) = Ok (VRef f)) as Hf.
  { unfold py_get_fail. by rewrite Hgf. }
  destruct Hlps as (Hsf & Hnef & HNf & Hfmax).
  assert (∀ q, q `suffix_of` p → N q → q = p ∨ q `suffix_of` f) as Hcase.
  { intros q Hq HNq. destruct (decide (q = p)) as [|Hne]; [by left|]. right.
    apply (suffix_of_shorter _ _ p); [done..|]. by apply Hfmax. }
  assert (0 < n)%nat as Hn0 by (specialize (Hn _ Hp); lia).
  destruct n as [|n']; [lia|].
  destruct (py_in h end_of_word (VRef p)) eqn:Hin.
  - rewrite get_word_length_marked_Ok by done. rewrite !bind_Ok, Hf, bind_Ok.
    replace (i - 0 + 1) with (i + 1) by lia. rewrite py_slice_empty.
    destruct (IH f (rs ++ [(i + 1, i + 1, [])]) HNf) as (L & -> & Hnd & HL); [lia|].
    apply py_in_marked in Hin. exists (p :: L). split_and!.
    + by rewrite <- app_assoc.
    + constructor; [|done]. intros (_ & _ & Hs%suffix_length)%HL. lia.
    + intros q. rewrite elem_of_cons, HL. split.
      * intros [->|(? & ? & ?)]; [done|]. split_and!; [done..|by etrans].
      * intros (Hq & Hne & Hs). destruct (Hcase q Hs (HW _ Hq)); auto.
  - rewrite bind_Ok, Hf, bind_Ok.
    destruct (IH f rs HNf) as (L & -> & Hnd & HL); [lia|].
    exists L. split_and!; [done..|]. intros q. rewrite HL. split.
    + intros (? & ? & ?). split_and!; [done..|by etrans].
    + intros (Hq & Hne & Hs). destruct (Hcase q Hs (HW _ Hq)) as [->|?]; [|done].
      apply py_in_marked in Hq. congruence.
Qed.
End search_spec.

Lemma report_count ws s p (L : list pystr) :
  is_ls (node_of ws) s p → NoDup L →
  (∀ q, q ∈ L ↔ q ∈ ws ∧ q ≠ [] ∧ q `suffix_of` p) →
  length L = occurrences_ending ws s.
Proof.
  intros Hls Hnd HL. unfold occurrences_ending. apply Permutation_length.
  apply list.NoDup_Permutation; [done|apply NoDup_filter, NoDup_remove_dups|].
  intros q. rewrite HL, list_elem_of_filter, elem_of_remove_dups. split.
  - intros (? & ? & Hs). split_and!; [done| |done]. etrans; [done|]. apply Hls.
  - intros ((? & Hs) & Hq). split_and!; [done..|].
    apply (is_ls_suffix _ _ _ _ Hls); [done|]. by apply word_node_of.
Qed.

Lemma search_loop_prefix ws h n text t rest :
  Forall hashfree ws → compiled_inv (node_of ws) (.∈ ws) h →
  (total_len ws < n)%nat → hashfree t →
  ∀ s p rs, is_ls (node_of ws) s p →
  ∃ p', is_ls (node_of ws) (s ++ t) p' ∧
    search_loop n h text (Z.of_nat (length s)) (t ++ rest) (VRef p) rs
    = search_loop n h text (Z.of_nat (length (s ++ t))) rest (VRef p')
        (rs ++ expected_from ws s t).
Proof.
  intros Hfree Hinv Hlen. pose proof (node_of_paths_ok ws Hfree) as HN.
  assert (∀ q, node_of ws q → (length q < n)%nat) as Hn.
  { intros q Hq%node_of_length. lia. }
  induction t as [|c t IH]; intros Ht s p rs Hls.
  { exists p. by rewrite !app_nil_r. }
  assert (c ≠ hash ∧ hashfree t) as [Hc Ht'].
  { unfold hashfree in *. rewrite not_elem_of_cons in Ht.
    destruct Ht. split; [congruence|done]. }
  destruct (search_step _ _ HN h Hinv n Hn s p c Hc Hls) as (g & p' & Hwalk & Hls' & Hcase).
  assert (∃ rs', rs' = rs ++ replicate (occurrences_ending ws (s ++ [c]))
                                (Z.of_nat (length s) + 1, Z.of_nat (length s) + 1, []) ∧
    search_loop n h text (Z.of_nat (length s)) ((c :: t) ++ rest) (VRef p) rs
    = search_loop n h text (Z.of_nat (length s) + 1) (t ++ rest) (VRef p') rs')
    as (rs' & -> & ->).
  { eexists. split; [done|]. cbn [app search_loop]. rewrite Hwalk, bind_Ok.
    destruct Hcase as [(-> & -> & Hget)|(-> & -> & ->)].
    - rewrite Hget, bind_Ok.
      destruct (search_report_spec _ _ (word_node_of ws) h Hinv n Hn text
                  (Z.of_nat (length s)) n (g ++ [c]) rs) as (L & -> & Hnd & HL);
        [apply Hls'|apply Hn, Hls'|].
      rewrite bind_Ok. by rewrite (report_count ws (s ++ [c]) (g ++ [c]) L).
    - rewrite <- (report_count ws (s ++ [c]) [] []); [by rewrite app_nil_r|done|constructor|].
      intros q. split; [by intros ?%elem_of_nil|]. by intros (_ & ? & ->%suffix_nil_inv). }
  destruct (IH Ht' (s ++ [c]) p' (rs ++ replicate (occurrences_ending ws (s ++ [c]))
              (Z.of_nat (length s) + 1, Z.of_nat (length s) + 1, [])) Hls') as (p'' & Hls'' & Heq).
  exists p''. rewrite <- app_assoc in Hls'', Heq. cbn [app] in Hls'', Heq.
  split; [done|]. rewrite length_app, Nat2Z.inj_add in Heq. cbn [length] in Heq.
  change (Z.of_nat 1) with 1 in Heq. rewrite Heq. cbn [expected_from].
  by rewrite <- app_assoc.
Qed.

(** [search] on a compiled automaton reports, at every position of a text
    without ['#'], one match for every pattern that ends there. *)
Lemma search_expected ws h n text :
  Forall hashfree ws → compiled_inv (node_of ws) (.∈ ws) h →
  (total_len ws < n)%nat → hashfree text →
  search n h text = Ok (expected_matches ws text).
Proof.
  intros Hfree Hinv Hn Ht. unfold search, root, expected_matches.
  destruct (search_loop_prefix ws h n text text [] Hfree Hinv Hn Ht [] [] [])
    as (p' & _ & Heq).
  { apply is_ls_nil. by left. }
  rewrite app_nil_r in Heq. cbn [length] in Heq. change (Z.of_nat 0) with 0 in Heq.
  by rewrite Heq.
Qed.

(** ** [recognize_entities] keeps every match *)

Lemma search_report_points n k h text i temp rs rs' :
  search_report n k h text i temp rs = Ok rs' →
  ∃ m, rs' = rs ++ replicate m (i + 1, i + 1, []).
Proof.
  intros (extra & -> & Hall)%search_report_shape. exists (length extra). f_equal.
  induction Hall as [|x extra -> _ IH]; [done|]. simpl. by rewrite <- IH.
Qed.

Lemma sorted_from_weaken lo lo' js : lo' ≤ lo → sorted_from lo js → sorted_from lo' js.
Proof. destruct js; simpl; [done|]. intros ? [? ?]. split; [lia|done]. Qed.

Lemma sorted_from_replicate m i js :
  sorted_from (i + 1) js → sorted_from i (replicate m i ++ js).
Proof.
  intros Hs. induction m as [|m IH]; simpl.
  - eapply sorted_from_weaken; [|done]. lia.
  - split; [lia|done].
Qed.

Lemma search_loop_points n h text i rest cur rs rs' :
  search_loop n h text i rest cur rs = Ok rs' →
  ∃ js, rs' = rs ++ (point_match <$> js) ∧ sorted_from i js.
Proof.
  revert i cur rs. induction rest as [|c rest IH]; intros i cur rs; simpl.
  { intros [= <-]. exists []. by rewrite app_nil_r. }
  intros (cur1 & _ & H)%bind_Ok_inv.
  destruct (py_in h [c] cur1).
  - apply bind_Ok_inv in H as (cur2 & _ & H).
    apply bind_Ok_inv in H as (rs1 & Hrep & H).
    apply search_report_points in Hrep as (m & ->).
    apply IH in H as (js & -> & Hsorted).
    exists (replicate m i ++ js). split; [|by apply sorted_from_replicate].
    by rewrite fmap_app, fmap_replicate, app_assoc.
  - apply IH in H as (js & -> & Hsorted).
    exists js. split; [done|]. by apply (sorted_from_replicate 0).
Qed.

Lemma list_sort_points lo js :
  sorted_from lo js → list_sort (point_match <$> js) = point_match <$> js.
Proof.
  revert lo. induction js as [|j js IH]; intros lo; [done|]. intros [_ Hs].
  cbn [fmap list_fmap list_sort foldr]. fold (list_sort (point_match <$> js)).
  rewrite (IH j Hs). destruct js as [|j' js]; [done|].
  destruct Hs as [Hj _]. cbn [fmap list_fmap sort_insert].
  unfold key_le, sort_key, point_match. simpl.
  destruct (Z.ltb_spec (j + 1) (j' + 1)); [done|].
  destruct (Z.eqb_spec (j + 1) (j' + 1)); [|lia].
  replace (j + 1 - (j + 1)) with 0 by lia. replace (j' + 1 - (j' + 1)) with 0 by lia.
  done.
Qed.

Lemma resolve_points m js lo last_end es :
  sorted_from lo js → last_end ≤ lo + 1 →
  resolve m (point_match <$> js) last_end es
  = es ++ (entity_of m <$> (point_match <$> js)).
Proof.
  revert lo last_end es. induction js as [|j js IH]; intros lo last_end es.
  { intros _ _. simpl. by rewrite app_nil_r. }
  intros [Hj Hs] Hlast. cbn [fmap list_fmap resolve]. unfold point_match at 1.
  destruct (Z.leb_spec last_end (j + 1)); [|lia].
  rewrite (IH j); [by rewrite <- app_assoc|done|lia].
Qed.

(** The sort and the sweep of [recognize_entities] change nothing: the
    matches of [search] come in order and are empty spans. *)
Lemma recognize_entities_all n ner text :
  recognize_entities n ner text
  = search n (ac_automaton ner) text ≫= λ ms : list Match,
      Ok (entity_of (entity_type_mapping ner) <$> ms).
Proof.
  unfold recognize_entities.
  destruct (search n (ac_automaton ner) text) as [ms| |] eqn:Hs; [|done..].
  rewrite !bind_Ok. apply search_loop_points in Hs as (js & -> & Hsorted).
  simpl. rewrite (list_sort_points 0) by done. by rewrite (resolve_points _ _ 0).
Qed.

(** ** Matches and occurrences *)

Lemma occurrences_ending_0 ws s :
  occurrences_ending ws s = 0%nat ↔ ∀ w, w ∈ ws → w ≠ [] → ¬ w `suffix_of` s.
Proof.
  unfold occurrences_ending. rewrite length_zero_iff_nil. split.
  - intros Hnil w Hw Hne Hs.
    assert (w ∈ filter (λ w, w ≠ [] ∧ w `suffix_of` s) (remove_dups ws)) as Hin.
    { apply list_elem_of_filter. split; [done|]. by apply elem_of_remove_dups. }
    rewrite Hnil in Hin. by apply elem_of_nil in Hin.
  - intros Hnone. apply elem_of_nil_inv. intros w [[Hne Hs] Hw]%list_elem_of_filter.
    apply (proj1 (elem_of_remove_dups _ _)) in Hw. exact (Hnone w Hw Hne Hs).
Qed.

Lemma expected_from_nil ws rest : ∀ s,
  expected_from ws s rest = [] ↔
  ∀ u v, rest = u ++ v → u ≠ [] → ∀ w, w ∈ ws → w ≠ [] → ¬ w `suffix_of` s ++ u.
Proof.
  induction rest as [|c rest IH]; intros s.
  { split; [|done]. intros _ u v Huv Hu. symmetry in Huv.
    apply app_eq_nil in Huv as [-> _]. done. }
  cbn [expected_from]. split.
  - intros [Hocc Hrec]%app_eq_nil u v Huv Hu w Hw Hne.
    destruct u as [|c' u]; [done|]. injection Huv as <- ->.
    destruct (decide (u = [])) as [->|Hu'].
    + destruct (occurrences_ending ws (s ++ [c])) eqn:Ho; [|done].
      by apply (occurrences_ending_0 ws (s ++ [c])).
    + rewrite cons_middle, app_assoc. by apply (proj1 (IH (s ++ [c])) Hrec u v).
  - intros Hnone. assert (occurrences_ending ws (s ++ [c]) = 0%nat) as ->.
    { apply occurrences_ending_0. intros w Hw Hne. by apply (Hnone [c] rest). }
    simpl. apply IH. intros u v -> Hu w Hw Hne. rewrite <- app_assoc.
    by apply (Hnone (c :: u) v).
Qed.

(** [search] is expected to report nothing exactly when no pattern occurs. *)
Lemma expected_matches_nil ws text :
  expected_matches ws text = [] ↔ ∀ w, w ∈ ws → w ≠ [] → ¬ occurs_in w text.
Proof.
  unfold expected_matches. rewrite expected_from_nil. split.
  - intros Hnone w Hw Hne (u & v & ->).
    apply (Hnone (u ++ w) v ltac:(by rewrite <- app_assoc)) with (w := w); [|done..|].
    + intros Heq. by apply app_eq_nil in Heq as [_ ->].
    + simpl. by apply suffix_app_r.
  - intros Hnone u v -> Hu w Hw Hne [k Hk]. simpl in Hk. subst u.
    apply (Hnone w Hw Hne). exists k, v. by rewrite <- app_assoc.
Qed.

(** ** A ['#'] in the text *)

Section hash_text.
Context (N W : addr → Prop) (HN : paths_ok N) (HW : ∀ p, W p → N p).
Context (h : gmap addr dict) (Hinv : compiled_inv N W h).

(** Lines 61-62 on the character ['#']: the walk stops at the first node of
    the failure chain that holds the end marker. *)
Lemma search_walk_hash n p w :
  N p → W w → w `suffix_of` p → (length p < n)%nat →
  ∃ g, search_walk n h end_of_word (VRef p) = Ok (VRef g) ∧ W g.
Proof.
  destruct Hinv as [Hauto Hfail]. intros Hp Hw. revert p Hp.
  induction n as [|n IH]; intros p Hp Hs Hn; [lia|].
  cbn [search_walk]. destruct (py_in h end_of_word (VRef p)) eqn:Hin.
  { rewrite andb_false_r. exists p. split; [done|]. by apply (py_in_marked N W h Hinv). }
  rewrite andb_true_r.
  assert (w ≠ p) as Hne.
  { intros ->. apply (py_in_marked N W h Hinv) in Hw. congruence. }
  destruct p as [|c0 p0]; [by apply suffix_nil_inv in Hs|].
  cbn [py_ne_root].
  destruct (has_fail_lps N W h (c0 :: p0) Hauto) as (f & Hgf & Hlps); [by apply Hfail|].
  unfold py_get_fail. rewrite Hgf. cbn [default]. rewrite bind_Ok.
  pose proof (is_lps_length _ _ _ Hlps) as Hlf.
  destruct Hlps as (Hsf & Hnef & HNf & Hfmax).
  apply IH; [done| |lia].
  apply (suffix_of_shorter _ _ (c0 :: p0)); [done..|]. apply Hfmax; [done..|by apply HW].
Qed.

(** Lines 64-77 then move to the string ['#'] stored under the end marker,
    and [temp.get] fails on it. *)
Lemma search_loop_hash n text i rest p w rs :
  N p → W w → w `suffix_of` p → (length p < n)%nat →
  search_loop n h text i (hash :: rest) (VRef p) rs = Raise AttributeError.
Proof.
  intros Hp Hw Hs Hn. cbn [search_loop]. change [hash] with end_of_word.
  destruct (search_walk_hash n p w Hp Hw Hs Hn) as (g & -> & Hg).
  rewrite bind_Ok. rewrite (proj2 (py_in_marked N W h Hinv g) Hg).
  destruct Hinv as [Hauto _]. unfold py_getitem.
  rewrite (inv_word _ _ _ Hauto _ Hg), bind_Ok.
  destruct n as [|n']; [lia|]. cbn [search_report py_ne_root].
  assert (py_in h end_of_word (VStr end_of_word) = true) as Hin by reflexivity.
  rewrite Hin, get_word_length_marked_Ok by done. reflexivity.
Qed.
End hash_text.

(** ** The words of the trie *)

Lemma auto_inv_marked N W h p :
  auto_inv N W h → py_in h end_of_word (VRef p) = true ↔ W p.
Proof.
  intros Hauto. unfold py_in, dict_has. split.
  - destruct (dict_get (deref h p) end_of_word) as [v|] eqn:Hg; [|done]. intros _.
    destruct (inv_keys _ _ _ Hauto _ _ _ Hg)
      as [(_ & _ & ?)|[(He & _)|(c & He & Hc & _)]]; [done| |].
    + by apply end_ne_fail in He.
    + rewrite end_of_word_eq in He. by injection He as <-.
  - intros Hp. by rewrite (inv_word _ _ _ Hauto _ Hp).
Qed.

(** A word is found in the trie exactly when it was added. *)
Lemma trie_member N W h w :
  paths_ok N → (∀ p, W p → N p) → auto_inv N W h →
  (∃ a, py_walk h root w = Some (VRef a) ∧ py_in h end_of_word (VRef a) = true) ↔ W w.
Proof.
  intros HN HW Hauto. split.
  - intros (a & Hwalk & Hin).
    apply (py_walk_node N W h Hauto) in Hwalk as [-> _]; [|apply HN].
    by apply (auto_inv_marked N W h) in Hin.
  - intros Hw. exists w. split.
    + apply (py_walk_path N W HN h Hauto []). by apply HW.
    + by apply (auto_inv_marked N W h).
Qed.

(** Two stores for the same trie differ in their failure links only. *)
Lemma auto_inv_lookup N W h1 h2 p k :
  auto_inv N W h1 → auto_inv N W h2 → k ≠ fail_key →
  dict_get (deref h1 p) k = dict_get (deref h2 p) k.
Proof.
  assert (∀ h1 h2 v, auto_inv N W h1 → auto_inv N W h2 → k ≠ fail_key →
            dict_get (deref h1 p) k = Some v → dict_get (deref h2 p) k = Some v) as Hone.
  { clear h1 h2. intros h1 h2 v H1 H2 Hk Hg.
    destruct (inv_keys _ _ _ H1 _ _ _ Hg)
      as [(-> & -> & Hw)|[(-> & _)|(c & -> & Hc & -> & Hp)]]; [|done|].
    - by apply (inv_word _ _ _ H2).
    - by apply (inv_child _ _ _ H2). }
  intros H1 H2 Hk.
  destruct (dict_get (deref h1 p) k) as [v|] eqn:Hg1.
  - symmetry. by apply (Hone h1 h2).
  - destruct (dict_get (deref h2 p) k) as [v|] eqn:Hg2; [|done].
    apply (Hone h2 h1) in Hg2; [congruence|done..].
Qed.

(** ** [text_to_bio]: indices out of range *)

Lemma py_list_set_ok (l : list pystr) (i : Z) x :
  - Z.of_nat (length l) ≤ i < Z.of_nat (length l) →
  ∃ l', py_list_set l i x = Ok l' ∧ length l' = length l.
Proof.
  intros Hi. unfold py_list_set.
  destruct (Z.leb_spec 0 i); destruct (Z.ltb_spec i (Z.of_nat (length l))); simpl;
    try (exfalso; lia).
  - eexists. split; [done|]. apply length_insert.
  - destruct (Z.leb_spec (- Z.of_nat (length l)) i);
      destruct (Z.ltb_spec i 0); simpl; try (exfalso; lia).
    eexists. split; [done|]. apply length_insert.
Qed.

Lemma py_list_set_low (l : list pystr) (i : Z) x :
  i < - Z.of_nat (length l) → py_list_set l i x = Raise IndexError.
Proof.
  intros Hi. unfold py_list_set.
  destruct (Z.leb_spec 0 i); simpl; [exfalso; lia|].
  destruct (Z.leb_spec (- Z.of_nat (length l)) i); simpl; [exfalso; lia|done].
Qed.

Lemma mark_inside_ok tag idxs (tags : list pystr) :
  Forall (λ i, - Z.of_nat (length tags) ≤ i < Z.of_nat (length tags)) idxs →
  ∃ tags', mark_inside tag idxs tags = Ok tags' ∧ length tags' = length tags.
Proof.
  revert tags. induction idxs as [|i idxs IH]; intros tags Hall; [by eexists|].
  apply Forall_cons in Hall as [Hi Hall]. cbn [mark_inside].
  destruct (py_list_set_ok tags i tag Hi) as (tags1 & -> & Hl1). rewrite bind_Ok.
  destruct (IH tags1) as (tags' & -> & Hl); [by rewrite Hl1|].
  exists tags'. split; [done|congruence].
Qed.

Lemma py_range_bounds lo hi i : i ∈ py_range lo hi → lo ≤ i < hi.
Proof.
  unfold py_range. intros (k & -> & Hk%elem_of_seq)%list_elem_of_fmap. lia.
Qed.

(** Lines 180-189 for one entity: only a start below [-len] is an error. *)
Lemma mark_entity_ok (e : Entity) (tags : list pystr) :
  - Z.of_nat (length tags) ≤ e_start e →
  ∃ tags1 tags',
    (if e_start e <? Z.of_nat (length tags)
     then py_list_set tags (e_start e) (str "B-" ++ e_type e)
     else Ok tags) = Ok tags1 ∧
    mark_inside (str "I-" ++ e_type e)
       (py_range (e_start e + 1) (Z.min (e_end e) (Z.of_nat (length tags1)))) tags1
    = Ok tags' ∧
    length tags' = length tags.
Proof.
  intros Hlo.
  assert (∃ tags1, (if e_start e <? Z.of_nat (length tags)
     then py_list_set tags (e_start e) (str "B-" ++ e_type e)
     else Ok tags) = Ok tags1 ∧ length tags1 = length tags) as (tags1 & -> & Hl1).
  { destruct (Z.ltb_spec (e_start e) (Z.of_nat (length tags))); [|by eexists].
    apply py_list_set_ok. lia. }
  destruct (mark_inside_ok (str "I-" ++ e_type e)
              (py_range (e_start e + 1) (Z.min (e_end e) (Z.of_nat (length tags1)))) tags1)
    as (tags' & Hm & Hl).
  { apply Forall_forall. intros i Hi%py_range_bounds. rewrite Hl1 in *. lia. }
  exists tags1, tags'. split_and!; [done..|congruence].
Qed.

Lemma mark_entities_ok (es : list Entity) (tags : list pystr) :
  (∀ e, e ∈ es → - Z.of_nat (length tags) ≤ e_start e) →
  ∃ tags', mark_entities es tags = Ok tags' ∧ length tags' = length tags.
Proof.
  revert tags. induction es as [|e es IH]; intros tags Hall; [by eexists|].
  cbn [mark_entities]. cbv zeta.
  destruct (mark_entity_ok e tags) as (tags0 & tags1 & -> & Hm & Hl1).
  { apply Hall, list_elem_of_here. }
  rewrite bind_Ok, Hm, bind_Ok.
  destruct (IH tags1) as (tags' & -> & Hl).
  { intros e' He'. rewrite Hl1. by apply Hall, list_elem_of_further. }
  exists tags'. split; [done|congruence].
Qed.

Lemma mark_entities_low (es : list Entity) (tags : list pystr) e :
  e ∈ es → e_start e < - Z.of_nat (length tags) →
  mark_entities es tags = Raise IndexError.
Proof.
  revert tags. induction es as [|e0 es IH]; intros tags Hin Hlow.
  { by apply elem_of_nil in Hin. }
  cbn [mark_entities]. cbv zeta.
  destruct (decide (e_start e0 < - Z.of_nat (length tags))) as [Hlow0|Hok].
  - destruct (Z.ltb_spec (e_start e0) (Z.of_nat (length tags))); [|exfalso; lia].
    by rewrite py_list_set_low.
  - destruct (mark_entity_ok e0 tags) as (tags0 & tags1 & -> & Hm & Hl1); [lia|].
    rewrite bind_Ok, Hm, bind_Ok.
    apply elem_of_cons in Hin as [->|Hin]; [done|].
    apply IH; [done|by rewrite Hl1].
Qed.

(** ** [text_to_bio] after [recognize_entities] *)

(** Entities that span no position past their start leave only [B-] tags. *)
Lemma mark_entities_points (L : pystr) (es : list Entity) (tags : list pystr) :
  Forall (λ e, 0 ≤ e_start e ∧ e_end e ≤ e_start e + 1 ∧ e_type e = L) es →
  ∃ tags', mark_entities es tags = Ok tags' ∧ length tags' = length tags ∧
    ∀ k : nat, (k < length tags)%nat →
      tags' !! k = if decide (Exists (λ e, e_start e = Z.of_nat k) es)
                   then Some (str "B-" ++ L) else tags !! k.
Proof.
  revert tags. induction es as [|e es IH]; intros tags Hall.
  { exists tags. split_and!; [done..|]. intros k _.
    destruct (decide _) as [Hex|]; [|done]. by apply Exists_nil in Hex. }
  apply Forall_cons in Hall as [(Hs & He & Ht) Hall].
  cbn [mark_entities]. cbv zeta.
  assert (∃ tags1, (if e_start e <? Z.of_nat (length tags)
     then py_list_set tags (e_start e) (str "B-" ++ e_type e)
     else Ok tags) = Ok tags1 ∧ length tags1 = length tags ∧
     ∀ k : nat, tags1 !! k = if decide (e_start e = Z.of_nat k ∧ (k < length tags)%nat)
                       then Some (str "B-" ++ L) else tags !! k)
    as (tags1 & -> & Hl1 & Ht1).
  { destruct (Z.ltb_spec (e_start e) (Z.of_nat (length tags))) as [Hlt|Hge].
    - assert (0 ≤ e_start e < Z.of_nat (length tags)) as HH by lia.
      rewrite (py_list_set_in _ _ _ HH). eexists. split; [done|].
      split; [apply length_insert|]. intros k.
      destruct (decide (Z.to_nat (e_start e) = k)) as [<-|Hne].
      + rewrite decide_True by lia. rewrite Ht. apply list_lookup_insert_eq. lia.
      + rewrite decide_False by lia. by apply list_lookup_insert_ne.
    - exists tags. split_and!; [done..|]. intros k. rewrite decide_False; [done|lia]. }
  rewrite bind_Ok.
  assert (py_range (e_start e + 1) (Z.min (e_end e) (Z.of_nat (length tags1))) = []) as ->.
  { unfold py_range. replace (Z.to_nat _) with 0%nat by lia. done. }
  cbn [mark_inside]. rewrite bind_Ok.
  destruct (IH tags1 Hall) as (tags' & -> & Hl & Ht').
  exists tags'. split_and!; [done|congruence|].
  intros k Hk. rewrite Ht' by lia. rewrite Ht1.
  destruct (decide (Exists (λ e, e_start e = Z.of_nat k) es)) as [Hex|Hnex].
  - rewrite decide_True; [done|]. by apply Exists_cons_tl.
  - destruct (decide (e_start e = Z.of_nat k ∧ (k < length tags)%nat)) as [[Hk' _]|Hno].
    + rewrite decide_True; [done|]. by apply Exists_cons_hd.
    + rewrite decide_False; [done|]. intros [?|?]%Exists_cons; [|done]. apply Hno. done.
Qed.

(** ** The counters of [analyze_entity_frequency] *)

Lemma counter_get_add {K} `{EqDecision K} (d : list (K * Z)) k n k' :
  counter_get (counter_add d k n) k'
  = counter_get d k' + (if decide (k' = k) then n else 0).
Proof.
  induction d as [|[k0 v] d IH]; cbn [counter_add counter_get].
  { destruct (decide (k' = k)); lia. }
  destruct (decide (k = k0)) as [->|Hne]; cbn [counter_get].
  - destruct (decide (k' = k0)); lia.
  - destruct (decide (k' = k0)) as [->|]; [|done].
    rewrite decide_False by done. lia.
Qed.

Lemma counter_total_cons {K} (kv : K * Z) (d : list (K * Z)) :
  counter_total (kv :: d) = kv.2 + counter_total d.
Proof. reflexivity. Qed.

Lemma counter_total_nil K : counter_total (@nil (K * Z)) = 0.
Proof. reflexivity. Qed.

Lemma counter_total_add {K} `{EqDecision K} (d : list (K * Z)) k n :
  counter_total (counter_add d k n) = counter_total d + n.
Proof.
  induction d as [|[k0 v] d IH]; cbn [counter_add].
  { rewrite counter_total_cons, (counter_total_nil K). cbn [snd]. lia. }
  destruct (decide (k = k0)); rewrite !counter_total_cons; cbn [snd]; lia.
Qed.

(** The sum of the counts of the keys that satisfy [P]. *)
Lemma counter_add_filter {K} `{EqDecision K} (P : K → Prop) `{∀ k, Decision (P k)}
    (d : list (K * Z)) k n :
  counter_total (filter (λ kv, P kv.1) (counter_add d k n))
  = counter_total (filter (λ kv, P kv.1) d) + (if decide (P k) then n else 0).
Proof.
  induction d as [|[k0 v] d IH]; cbn [counter_add].
  { rewrite filter_cons, !filter_nil. cbn [fst].
    destruct (decide (P k)); rewrite ?counter_total_cons, (counter_total_nil K); cbn [snd]; lia. }
  destruct (decide (k = k0)) as [->|Hne]; rewrite !filter_cons; cbn [fst].
  - destruct (decide (P k0)); rewrite ?counter_total_cons; cbn [snd]; lia.
  - destruct (decide (P k0)); rewrite ?counter_total_cons; cbn [snd]; lia.
Qed.

Lemma count_entities_filter (P : pystr * pystr → Prop) `{∀ k, Decision (P k)}
    (d : list (pystr * pystr * Z)) (es : list Entity) :
  counter_total (filter (λ kv, P kv.1) (count_entities d es))
  = counter_total (filter (λ kv, P kv.1) d)
    + Z.of_nat (length (filter (λ e, P (e_text e, e_type e)) es)).
Proof.
  unfold count_entities. revert d. induction es as [|e es IH]; intros d; cbn [foldl].
  { rewrite filter_nil. cbn [length]. lia. }
  rewrite IH, counter_add_filter, filter_cons.
  destruct (decide (P (e_text e, e_type e))); cbn [length]; lia.
Qed.

Lemma entity_counter_filter (P : pystr * pystr → Prop) `{∀ k, Decision (P k)}
    (d : list (pystr * pystr * Z)) (ess : list (list Entity)) :
  counter_total (filter (λ kv, P kv.1) (foldl count_entities d ess))
  = counter_total (filter (λ kv, P kv.1) d)
    + Z.of_nat (length (filter (λ e, P (e_text e, e_type e)) (concat ess))).
Proof.
  revert d. induction ess as [|es ess IH]; intros d; cbn [foldl concat].
  { rewrite filter_nil. cbn [length]. lia. }
  rewrite IH, count_entities_filter, filter_app, length_app. lia.
Qed.

Lemma count_entities_get (d : list (pystr * pystr * Z)) (es : list Entity) k :
  counter_get (count_entities d es) k
  = counter_get d k + Z.of_nat (length (filter (λ e, (e_text e, e_type e) = k) es)).
Proof.
  unfold count_entities. revert d. induction es as [|e es IH]; intros d; cbn [foldl].
  { rewrite filter_nil. cbn [length]. lia. }
  rewrite IH, counter_get_add, filter_cons.
  destruct (decide (k = (e_text e, e_type e))) as [->|Hne].
  - rewrite decide_True by done. cbn [length]. lia.
  - rewrite decide_False by done. lia.
Qed.

Lemma entity_counter_get (d : list (pystr * pystr * Z)) (ess : list (list Entity)) k :
  counter_get (foldl count_entities d ess) k
  = counter_get d k
    + Z.of_nat (length (filter (λ e, (e_text e, e_type e) = k) (concat ess))).
Proof.
  revert d. induction ess as [|es ess IH]; intros d; cbn [foldl concat].
  { rewrite filter_nil. cbn [length]. lia. }
  rewrite IH, count_entities_get, filter_app, length_app. lia.
Qed.

Lemma type_counter_get (items : list (pystr * pystr * Z)) (d : list (pystr * Z)) ty :
  counter_get
    (foldl (λ d '((text, entity_type), count), counter_add d entity_type count) d items) ty
  = counter_get d ty + counter_total (filter (λ kv, kv.1.2 = ty) items).
Proof.
  revert d.
  induction items as [|[[t ty'] c] items IH]; intros d; cbn [foldl].
  { rewrite filter_nil, (counter_total_nil (pystr * pystr)). lia. }
  rewrite IH, counter_get_add, filter_cons. cbn [fst snd].
  destruct (decide (ty = ty')) as [->|Hne].
  - rewrite decide_True by done. rewrite counter_total_cons. cbn [snd]. lia.
  - rewrite decide_False by done. lia.
Qed.

Lemma type_counter_total (items : list (pystr * pystr * Z)) (d : list (pystr * Z)) :
  counter_total
    (foldl (λ d '((text, entity_type), count), counter_add d entity_type count) d items)
  = counter_total d + counter_total items.
Proof.
  revert d. induction items as [|[[t ty'] c] items IH]; intros d; cbn [foldl].
  { rewrite (counter_total_nil (pystr * pystr)). lia. }
  rewrite IH, counter_total_add, counter_total_cons. cbn [snd]. lia.
Qed.

Lemma filter_True_id {A} (l : list A) : filter (λ _, True) l = l.
Proof.
  induction l as [|x l IH]; [done|]. rewrite filter_cons. simpl. by rewrite IH.
Qed.

(** ** [strip] and the loaders *)

Lemma py_lstrip_spec is_space s :
  ∃ u, s = u ++ py_lstrip is_space s ∧ Forall (λ c, is_space c = true) u ∧
       ∀ c, head (py_lstrip is_space s) = Some c → is_space c = false.
Proof.
  induction s as [|c s (u & Hs & Hu & Hh)]; cbn [py_lstrip].
  { exists []. split_and!; [done|constructor|done]. }
  destruct (is_space c) eqn:Hc.
  - exists (c :: u). split_and!; [simpl; congruence|by constructor|done].
  - exists []. split_and!; [done|constructor|]. simpl. congruence.
Qed.

Lemma py_lstrip_id is_space s :
  (∀ c, head s = Some c → is_space c = false) → py_lstrip is_space s = s.
Proof.
  destruct s as [|c s]; [done|]. intros Hh. cbn [py_lstrip].
  by rewrite (Hh c eq_refl).
Qed.

Lemma py_lstrip_last is_space s c :
  last (py_lstrip is_space s) = Some c → last s = Some c.
Proof.
  destruct (py_lstrip_spec is_space s) as (u & Hs & _ & _).
  intros Hl. rewrite Hs. destruct (py_lstrip is_space s) as [|c0 t] eqn:Ht; [done|].
  rewrite last_app. by rewrite Hl.
Qed.

Lemma py_strip_spec is_space s :
  ∃ u v, s = u ++ py_strip is_space s ++ v ∧
    Forall (λ c, is_space c = true) u ∧ Forall (λ c, is_space c = true) v ∧
    (∀ c, head (py_strip is_space s) = Some c → is_space c = false) ∧
    (∀ c, last (py_strip is_space s) = Some c → is_space c = false).
Proof.
  unfold py_strip.
  destruct (py_lstrip_spec is_space s) as (u & Hs & Hu & Hh).
  destruct (py_lstrip_spec is_space (reverse (py_lstrip is_space s))) as (v & Hr & Hv & Hl).
  set (t := py_lstrip is_space (reverse (py_lstrip is_space s))) in *.
  exists u, (reverse v). split_and!.
  - rewrite <- reverse_app, <- Hr, reverse_involutive. done.
  - done.
  - by apply Forall_reverse.
  - intros c Hc. apply Hh. rewrite <- (reverse_involutive (py_lstrip is_space s)), Hr.
    rewrite reverse_app. destruct (reverse t) as [|c0 t0]; [done|].
    simpl in *. done.
  - intros c Hc. apply Hl. by rewrite last_reverse in Hc.
Qed.

Lemma py_strip_id is_space s :
  (∀ c, head s = Some c → is_space c = false) →
  (∀ c, last s = Some c → is_space c = false) →
  py_strip is_space s = s.
Proof.
  intros Hh Hl. unfold py_strip. rewrite (py_lstrip_id is_space s Hh).
  rewrite py_lstrip_id; [apply reverse_involutive|].
  intros c Hc. apply Hl. by rewrite <- head_reverse.
Qed.

Lemma py_strip_idemp is_space s :
  py_strip is_space (py_strip is_space s) = py_strip is_space s.
Proof.
  destruct (py_strip_spec is_space s) as (_ & _ & _ & _ & _ & Hh & Hl).
  by apply py_strip_id.
Qed.

Lemma load_original_text_elem is_space lines s :
  s ∈ load_original_text is_space lines ↔
  s ≠ [] ∧ ∃ line, line ∈ lines ∧ s = py_strip is_space line.
Proof.
  induction lines as [|line lines IH]; cbn [load_original_text].
  { rewrite elem_of_nil. split; [done|]. by intros (_ & ? & ?%elem_of_nil & _). }
  case_bool_decide as Hne.
  - rewrite elem_of_cons, IH. split.
    + intros [->|(? & l & ? & ?)]; (split; [done|]).
      * exists line. split; [apply list_elem_of_here|done].
      * exists l. split; [by apply list_elem_of_further|done].
    + intros (Hs & l & [->|Hl]%elem_of_cons & ->); [by left|right; eauto].
  - rewrite IH. split.
    + intros (? & l & ? & ?). split; [done|]. exists l. split; [by apply list_elem_of_further|done].
    + intros (Hs & l & [->|Hl]%elem_of_cons & ->); [done|eauto].
Qed.

Lemma load_original_text_id is_space lines :
  Forall (λ s, s ≠ [] ∧ py_strip is_space s = s) lines →
  load_original_text is_space lines = lines.
Proof.
  induction 1 as [|s lines [Hne Hs] _ IH]; cbn [load_original_text]; [done|].
  rewrite Hs, bool_decide_true by done. by rewrite IH.
Qed.

(** ** From the dictionaries to the entities *)

Lemma recognize_entities_expected n loc per org :
  Forall hashfree (loc ++ per ++ org) → (total_len (loc ++ per ++ org) < n)%nat →
  ∃ ner, build_ac_automaton n loc per org = Ok ner ∧
    compiled_inv (node_of (loc ++ per ++ org)) (.∈ loc ++ per ++ org) (ac_automaton ner) ∧
    ∀ text, hashfree text →
      recognize_entities n ner text
      = Ok (entity_of (entity_type_mapping ner) <$> expected_matches (loc ++ per ++ org) text).
Proof.
  intros Hfree Hn. rewrite build_ac_automaton_eq.
  destruct (compile_inv _ n Hfree Hn) as (h & -> & Hinv). rewrite bind_Ok.
  eexists. split; [done|]. cbn [ac_automaton entity_type_mapping].
  specialize (Hinv _ (λ w, reflexivity _)). split; [done|].
  intros text Ht. rewrite recognize_entities_all. cbn [ac_automaton entity_type_mapping].
  by rewrite (search_expected _ h n text Hfree Hinv Hn Ht).
Qed.

Lemma total_len_app ws1 ws2 : total_len (ws1 ++ ws2) = (total_len ws1 + total_len ws2)%nat.
Proof. unfold total_len. by rewrite concat_app, length_app. Qed.

Lemma total_len_submseteq ws1 ws2 : ws1 ⊆+ ws2 → (total_len ws1 ≤ total_len ws2)%nat.
Proof.
  unfold total_len. induction 1; simpl; rewrite ?length_app in *; lia.
Qed.

Lemma py_strip_length is_space s : (length (py_strip is_space s) ≤ length s)%nat.
Proof.
  destruct (py_strip_spec is_space s) as (u & v & Hs & _).
  rewrite Hs at 2. rewrite !length_app. lia.
Qed.

Lemma py_strip_hashfree is_space s : hashfree s → hashfree (py_strip is_space s).
Proof.
  destruct (py_strip_spec is_space s) as (u & v & Hs & _).
  unfold hashfree. rewrite Hs at 1. rewrite !elem_of_app. tauto.
Qed.

Lemma load_original_text_len is_space lines :
  (total_len (load_original_text is_space lines) ≤ total_len lines)%nat.
Proof.
  unfold total_len. induction lines as [|line lines IH]; cbn [load_original_text]; [done|].
  pose proof (py_strip_length is_space line).
  case_bool_decide; simpl; rewrite ?length_app; lia.
Qed.

Lemma load_entity_file_elem is_space file w :
  w ∈ elements (load_entity_file is_space file) ↔
  w ≠ [] ∧ ∃ line, line ∈ file_lines file ∧ w = py_strip is_space line.
Proof.
  rewrite elem_of_elements. destruct file as [f|]; simpl.
  - by rewrite elem_of_list_to_set, load_original_text_elem.
  - rewrite elem_of_empty. split; [done|]. by intros (_ & ? & ?%elem_of_nil & _).
Qed.

Lemma load_entity_file_len is_space file :
  (total_len (elements (load_entity_file is_space file)) ≤ total_len (file_lines file))%nat.
Proof.
  etrans; [|apply (load_original_text_len is_space)].
  apply total_len_submseteq, NoDup_submseteq; [apply NoDup_elements|].
  intros w. rewrite elem_of_elements. destruct file as [f|]; simpl.
  - by rewrite elem_of_list_to_set.
  - by rewrite elem_of_empty.
Qed.

Lemma load_entity_file_hashfree is_space file :
  Forall hashfree (file_lines file) →
  Forall hashfree (elements (load_entity_file is_space file)).
Proof.
  rewrite !Forall_forall. intros Hfree w (_ & line & Hl & ->)%load_entity_file_elem.
  by apply py_strip_hashfree, Hfree.
Qed.

(** ** A ['#'] in the text that follows no word *)

Section hash_skip.
Context (N W : addr → Prop) (HN : paths_ok N) (HW : ∀ p, W p → N p).
Context (h : gmap addr dict) (Hinv : compiled_inv N W h).

(** Lines 61-62 on the character ['#']: no node of the failure chain holds
    the end marker, and the walk ends at the root. *)
Lemma search_walk_hash_root n p :
  N p → (∀ w, W w → ¬ w `suffix_of` p) → (length p < n)%nat →
  search_walk n h end_of_word (VRef p) = Ok (VRef []).
Proof.
  destruct Hinv as [Hauto Hfail]. revert p.
  induction n as [|n IH]; intros p Hp Hnone Hn; [lia|].
  cbn [search_walk]. destruct p as [|c0 p0]; [done|]. cbn [py_ne_root].
  destruct (py_in h end_of_word (VRef (c0 :: p0))) eqn:Hin.
  { apply (py_in_marked N W h Hinv) in Hin. by destruct (Hnone _ Hin). }
  cbn [negb andb].
  destruct (has_fail_lps N W h (c0 :: p0) Hauto) as (f & Hgf & Hlps); [by apply Hfail|].
  unfold py_get_fail. rewrite Hgf. cbn [default]. rewrite bind_Ok.
  pose proof (is_lps_length _ _ _ Hlps) as Hlf.
  destruct Hlps as (Hsf & Hnef & HNf & Hfmax).
  apply IH; [done| |simpl in *; lia].
  intros w Hw Hs. apply (Hnone w Hw). by etrans.
Qed.

(** Lines 64-67 then find no ['#'] in the root, and the loop goes on from
    the root. *)
Lemma search_loop_hash_skip n text i rest p rs :
  N p → (∀ w, W w → ¬ w `suffix_of` p) → (length p < n)%nat →
  search_loop n h text i (hash :: rest) (VRef p) rs
  = search_loop n h text (i + 1) rest (VRef []) rs.
Proof.
  intros Hp Hnone Hn. cbn [search_loop]. change [hash] with end_of_word.
  rewrite (search_walk_hash_root n p Hp Hnone Hn), bind_Ok.
  destruct (py_in h end_of_word (VRef [])) eqn:Hin; [|done].
  apply (py_in_marked N W h Hinv) in Hin. destruct (Hnone _ Hin). apply suffix_nil.
Qed.
End hash_skip.

Lemma is_ls_hash N s : paths_ok N → is_ls N (s ++ [hash]) [].
Proof.
  intros HN. split_and!; [apply suffix_nil|apply HN|].
  intros q Hq HNq. destruct (suffix_snoc_cases _ _ _ Hq) as [->|(q0 & -> & _)]; [done|].
  apply (paths_hashfree _ HN) in HNq. destruct HNq. apply elem_of_app. right.
  apply list_elem_of_here.
Qed.

Lemma occurrences_ending_hash ws s :
  Forall hashfree ws → occurrences_ending ws (s ++ [hash]) = 0%nat.
Proof.
  intros Hfree. apply occurrences_ending_0. intros w Hw Hne Hs.
  destruct (suffix_snoc_cases _ _ _ Hs) as [->|(q0 & -> & _)]; [done|].
  rewrite Forall_forall in Hfree. apply (Hfree _ Hw), elem_of_app. right.
  apply list_elem_of_here.
Qed.

(** [search] from the position after [s]: if no ['#'] of the text that is
    left follows a word, every position is reported as in a text without
    ['#']. *)
Lemma search_loop_expected ws h n text t :
  Forall hashfree ws → compiled_inv (node_of ws) (.∈ ws) h →
  (total_len ws < n)%nat →
  ∀ s p rs, is_ls (node_of ws) s p →
  (∀ t1 t2 w, t = t1 ++ hash :: t2 → w ∈ ws → ¬ w `suffix_of` s ++ t1) →
  search_loop n h text (Z.of_nat (length s)) t (VRef p) rs
  = Ok (rs ++ expected_from ws s t).
Proof.
  intros Hfree Hinv Hlen. pose proof (node_of_paths_ok ws Hfree) as HN.
  induction t as [|c t IH]; intros s p rs Hls Hnone.
  { cbn [search_loop expected_from]. by rewrite app_nil_r. }
  assert (∀ t1 t2 w, t = t1 ++ hash :: t2 → w ∈ ws → ¬ w `suffix_of` (s ++ [c]) ++ t1)
    as Hnone'.
  { intros t1 t2 w -> Hw. rewrite <- app_assoc. by apply (Hnone (c :: t1) t2). }
  assert (Z.of_nat (length (s ++ [c])) = Z.of_nat (length s) + 1) as Hi.
  { rewrite length_app. simpl. lia. }
  destruct (decide (c = hash)) as [->|Hc].
  - rewrite (search_loop_hash_skip (node_of ws) (.∈ ws) h Hinv).
    + rewrite <- Hi, (IH (s ++ [hash]) [] rs); [|by apply is_ls_hash|done].
      cbn [expected_from]. by rewrite occurrences_ending_hash.
    + apply Hls.
    + intros w Hw Hs. apply (Hnone [] t w eq_refl Hw). rewrite app_nil_r.
      etrans; [done|apply Hls].
    + destruct Hls as (_ & HNp%node_of_length & _). lia.
  - destruct (search_loop_prefix ws h n text [c] t Hfree Hinv Hlen) with (s := s) (p := p)
      (rs := rs) as (p' & Hls' & Heq); [|done|].
    { unfold hashfree. rewrite list_elem_of_singleton. congruence. }
    cbn [app] in Heq. rewrite Heq, (IH (s ++ [c]) p' _ Hls' Hnone').
    cbn [expected_from]. by rewrite app_nil_r, <- app_assoc.
Qed.

(** [search] from the position after [s]: a ['#'] that follows a word,
    wherever it is in the text that is left, ends in [AttributeError]. *)
Lemma search_loop_raises ws h n text t rest w :
  Forall hashfree ws → compiled_inv (node_of ws) (.∈ ws) h →
  (total_len ws < n)%nat →
  ∀ s p rs, is_ls (node_of ws) s p →
  w ∈ ws → w `suffix_of` s ++ t →
  search_loop n h text (Z.of_nat (length s)) (t ++ hash :: rest) (VRef p) rs
  = Raise AttributeError.
Proof.
  intros Hfree Hinv Hlen. pose proof (node_of_paths_ok ws Hfree) as HN.
  assert (∀ s p w', is_ls (node_of ws) s p → w' ∈ ws → w' `suffix_of` s →
            ∀ i rest' rs, search_loop n h text i (hash :: rest') (VRef p) rs
                          = Raise AttributeError) as Hraise.
  { intros s p w' Hls Hw' Hs i rest' rs.
    apply (search_loop_hash (node_of ws) (.∈ ws) (word_node_of ws) h Hinv) with (w := w');
      [apply Hls|done| |].
    - by apply (is_ls_suffix (node_of ws) s); [| |apply word_node_of].
    - destruct Hls as (_ & HNp%node_of_length & _). lia. }
  induction t as [|c t IH]; intros s p rs Hls Hw Hs.
  { rewrite app_nil_r in Hs. by apply (Hraise s p w). }
  assert (Z.of_nat (length (s ++ [c])) = Z.of_nat (length s) + 1) as Hi.
  { rewrite length_app. simpl. lia. }
  replace (s ++ c :: t) with ((s ++ [c]) ++ t) in Hs by (by rewrite <- app_assoc).
  destruct (decide (c = hash)) as [->|Hc].
  - destruct (decide (Exists (λ w', w' `suffix_of` s) ws)) as [Hex|Hnex].
    + apply Exists_exists in Hex as (w' & Hw' & Hs'). by apply (Hraise s p w').
    + cbn [app]. rewrite (search_loop_hash_skip (node_of ws) (.∈ ws) h Hinv).
      * rewrite <- Hi. apply IH; [by apply is_ls_hash|done..].
      * apply Hls.
      * intros w' Hw' Hs'. apply Hnex, Exists_exists. exists w'. split; [done|].
        etrans; [done|apply Hls].
      * destruct Hls as (_ & HNp%node_of_length & _). lia.
  - destruct (search_loop_prefix ws h n text [c] (t ++ hash :: rest) Hfree Hinv Hlen)
      with (s := s) (p := p) (rs := rs) as (p' & Hls' & Heq); [|done|].
    { unfold hashfree. rewrite list_elem_of_singleton. congruence. }
    cbn [app] in Heq |- *. rewrite Heq. by apply IH.
Qed.

Lemma hash_after_word_spec ws s rest :
  hash_after_word ws s rest = true ↔
  ∃ t rest' w, rest = t ++ hash :: rest' ∧ w ∈ ws ∧ w `suffix_of` s ++ t.
Proof.
  revert s. induction rest as [|c rest IH]; intros s; cbn [hash_after_word].
  { split; [done|]. intros (t & ? & ? & Heq & _). by destruct t. }
  rewrite orb_true_iff, andb_true_iff, !bool_decide_eq_true, IH, Exists_exists. split.
  - intros [[-> (w & Hw & Hs)]|(t & rest' & w & -> & Hw & Hs)].
    + exists [], rest, w. by rewrite app_nil_r.
    + exists (c :: t), rest', w. split_and!; [done..|]. by rewrite <- app_assoc in Hs.
  - intros (t & rest' & w & Heq & Hw & Hs). destruct t as [|c' t].
    + injection Heq as -> ->. left. split; [done|]. exists w. by rewrite app_nil_r in Hs.
    + injection Heq as -> ->. right. exists t, rest', w. split_and!; [done..|].
      by rewrite <- app_assoc.
Qed.

(** ** A word added again *)

Lemma dict_set_id (d : dict) k v : dict_get d k = Some v → dict_set d k v = d.
Proof.
  induction d as [|[k' v'] d IH]; cbn [dict_get dict_set]; [done|].
  destruct (decide (k = k')) as [->|]; [by intros [= ->]|].
  intros Hg. by rewrite IH.
Qed.

Lemma add_word_loop_again N W h q w :
  auto_inv N W h → (∀ k, (k ≤ length w)%nat → N (q ++ take k w)) → W (q ++ w) →
  ∃ h', add_word_loop h (VRef q) w = Ok h' ∧ ∀ p, deref h' p = deref h p.
Proof.
  intros Hauto. revert q. induction w as [|c w IH]; intros q HN HWw.
  - rewrite app_nil_r in HWw. cbn [add_word_loop py_setitem]. eexists. split; [done|].
    intros p. rewrite (dict_set_id _ _ _ (inv_word _ _ _ Hauto _ HWw)).
    unfold deref. destruct (decide (p = q)) as [->|Hne].
    + by rewrite lookup_insert_eq.
    + by rewrite lookup_insert_ne.
  - cbn [add_word_loop py_setdefault].
    rewrite (inv_child _ _ _ Hauto q c); [|apply (HN 1%nat); simpl; lia].
    rewrite bind_Ok. apply IH.
    + intros k Hk. rewrite <- app_assoc. apply (HN (S k)). simpl. lia.
    + by rewrite <- app_assoc.
Qed.

(** * The claims of the specification *)

Ltac by_compute :=
  match goal with |- ?P => apply (bool_decide_unpack P) end; vm_compute; exact I.

(** C1: the claim fails on the code.  With the single pattern ["AB"]
    (a location) and the text ["xAB"], [recognize_entities] returns one
    entity whose text is empty, at [3, 3), labelled ["UNK"]: the text is no
    pattern and the label is not the one of ["AB"]. *)
Theorem C1_recognize_failing_input :
  ∃ ner, build_ac_automaton 5 [str "AB"] [] [] = Ok ner ∧
    entity_type_mapping ner !! str "AB" = Some (str "LOC") ∧
    recognize_entities 5 ner (str "xAB")
    = Ok [{| e_text := []; e_start := 3; e_end := 3; e_type := str "UNK" |}].
Proof.
  eexists. split; [vm_compute; reflexivity|].
  split; vm_compute; reflexivity.
Qed.

(** C2: the claim fails on the code.  With ["AB"] (a location) and
    ["ABC"] (a person) compiled, [recognize_entities] over ["ABCD"] returns
    two entities, both with an empty text and the label ["UNK"], at [2, 2)
    and [3, 3), instead of the one entity ["ABC"] at [0, 3). *)
Theorem C2_longest_match_failing_input :
  ∃ ner, build_ac_automaton 5 [str "AB"] [str "ABC"] [] = Ok ner ∧
    recognize_entities 5 ner (str "ABCD")
    = Ok [{| e_text := []; e_start := 2; e_end := 2; e_type := str "UNK" |};
          {| e_text := []; e_start := 3; e_end := 3; e_type := str "UNK" |}].
Proof.
  eexists. split; vm_compute; reflexivity.
Qed.




(** C4 as stated fails: the matched text (here the empty string) has no
    entry in the mapping, and the entity is returned with the label
    ["UNK"]; no error is raised. *)
Lemma C4_counterexample :
  ∃ ner, build_ac_automaton 5 [str "AB"] [] [] = Ok ner ∧
    entity_type_mapping ner !! [] = None ∧
    recognize_entities 5 ner (str "AB")
    = Ok [{| e_text := []; e_start := 2; e_end := 2; e_type := str "UNK" |}].
Proof.
  eexists. split; [vm_compute; reflexivity|].
  split; vm_compute; reflexivity.
Qed.

(** C4, amended: whenever [search] returns, [recognize_entities] returns
    too, and every entity carries the label that the mapping has for its
    text, or the default ["UNK"] when the mapping has none. *)
Theorem C4_unknown_label n ner text ms :
  search n (ac_automaton ner) text = Ok ms →
  ∃ es, recognize_entities n ner text = Ok es ∧
    ∀ e, e ∈ es →
      e_type e = default (str "UNK") (entity_type_mapping ner !! e_text e) ∧
      (entity_type_mapping ner !! e_text e = None → e_type e = str "UNK").
Proof.
  intros Hs. eexists. split; [by apply recognize_entities_Ok|].
  intros e He.
  assert (e_type e = default (str "UNK") (entity_type_mapping ner !! e_text e)) as Ht.
  { revert e He. apply Forall_forall, resolve_types. constructor. }
  split; [done|]. intros Hnone. by rewrite Ht, Hnone.
Qed.

Lemma C4_witness :
  ∃ es, recognize_entities 5
          {| ac_automaton := match compile 5 [str "AB"] with
                             | Ok h => h
                             | _ => new_automaton
                             end;
             entity_type_mapping := {[ str "AB" := str "LOC" ]} |} (str "AB") = Ok es ∧
    ∀ e, e ∈ es →
      e_type e = default (str "UNK")
                   (({[ str "AB" := str "LOC" ]} : gmap pystr pystr) !! e_text e) ∧
      (({[ str "AB" := str "LOC" ]} : gmap pystr pystr) !! e_text e = None →
       e_type e = str "UNK").
Proof.
  assert (search 5 (match compile 5 [str "AB"] with
                    | Ok h => h
                    | _ => new_automaton
                    end) (str "AB") = Ok [(2, 2, [])]) as Hs
    by (vm_compute; reflexivity).
  exact (C4_unknown_label 5
           {| ac_automaton := match compile 5 [str "AB"] with
                              | Ok h => h
                              | _ => new_automaton
                              end;
              entity_type_mapping := {[ str "AB" := str "LOC" ]} |}
           (str "AB") [(2, 2, [])] Hs).
Defined.




(** C6: the entities returned by [recognize_entities] are consecutive and
    do not overlap: each ends at or before the start of the next. *)
Theorem C6_entities_ordered n ner text es :
  recognize_entities n ner text = Ok es →
  ∀ i e1 e2, es !! i = Some e1 → es !! S i = Some e2 → e_end e1 ≤ e_start e2.
Proof.
  intros (ms & _ & ->)%recognize_entities_inv.
  apply resolve_ordered.
  - intros i e1 e2 H. by rewrite lookup_nil in H.
  - done.
Qed.

Lemma C6_witness :
  recognize_entities 5
    (match build_ac_automaton 5 [str "AB"] [str "ABC"] [] with
     | Ok ner => ner
     | _ => {| ac_automaton := new_automaton; entity_type_mapping := ∅ |}
     end) (str "ABCD")
  = Ok [{| e_text := []; e_start := 2; e_end := 2; e_type := str "UNK" |};
        {| e_text := []; e_start := 3; e_end := 3; e_type := str "UNK" |}]
  ∧ (2 ≤ 3).
Proof.
  assert (recognize_entities 5
    (match build_ac_automaton 5 [str "AB"] [str "ABC"] [] with
     | Ok ner => ner
     | _ => {| ac_automaton := new_automaton; entity_type_mapping := ∅ |}
     end) (str "ABCD")
  = Ok [{| e_text := []; e_start := 2; e_end := 2; e_type := str "UNK" |};
        {| e_text := []; e_start := 3; e_end := 3; e_type := str "UNK" |}]) as Hrec
    by (vm_compute; reflexivity).
  split; [exact Hrec|].
  apply (C6_entities_ordered _ _ _ _ Hrec 0%nat
           {| e_text := []; e_start := 2; e_end := 2; e_type := str "UNK" |}
           {| e_text := []; e_start := 3; e_end := 3; e_type := str "UNK" |});
    reflexivity.
Defined.

(** C7 as stated fails for an entity with an empty span: the entity
    [1, 1) labelled ["PER"] and the entity [1, 3) labelled ["LOC"] share no
    position, yet position 1, where the first one starts, is tagged
    ["B-LOC"]. *)
Lemma C7_counterexample :
  non_overlapping
    [{| e_text := []; e_start := 1; e_end := 1; e_type := str "PER" |};
     {| e_text := str "bc"; e_start := 1; e_end := 3; e_type := str "LOC" |}] ∧
  text_to_bio (str "abc")
    [{| e_text := []; e_start := 1; e_end := 1; e_type := str "PER" |};
     {| e_text := str "bc"; e_start := 1; e_end := 3; e_type := str "LOC" |}]
  = Ok [str "a O"; str "b B-LOC"; str "c I-LOC"] ∧
  str "b B-LOC" ≠ bio_line 98 (str "B-PER").
Proof.
  split_and!; [|vm_compute; reflexivity|done].
  intros [|[|i]] [|[|j]] e1 e2 Hij H1 H2; simplify_eq/=; lia.
Qed.

(** C7, amended: for entities that are not empty ([start < end]), lie
    within the text and do not overlap, [text_to_bio] returns one line per
    character of the text; the line at the start of an entity carries the
    tag [B-] with its label, the lines at the other positions of the entity
    the tag [I-] with its label, and the lines covered by no entity the tag
    [O]. *)
Theorem C7_text_to_bio_tags (text : pystr) (es : list Entity) :
  (∀ e, e ∈ es → 0 ≤ e_start e < e_end e ∧ e_end e ≤ Z.of_nat (length text)) →
  non_overlapping es →
  ∃ out, text_to_bio text es = Ok out ∧ length out = length text ∧
    ∀ (j : nat) (c : char), text !! j = Some c →
      (∀ e, e ∈ es → Z.of_nat j = e_start e →
         out !! j = Some (bio_line c (str "B-" ++ e_type e))) ∧
      (∀ e, e ∈ es → e_start e < Z.of_nat j < e_end e →
         out !! j = Some (bio_line c (str "I-" ++ e_type e))) ∧
      ((∀ e, e ∈ es → ¬ (e_start e ≤ Z.of_nat j < e_end e)) →
         out !! j = Some (bio_line c (str "O"))).
Proof.
  intros Hin Hno. unfold text_to_bio. cbv zeta.
  destruct (mark_entities_in es (replicate (length text) (str "O"))) as (tags & -> & Hl & Ht).
  { intros e He. rewrite length_replicate. by apply Hin. }
  { done. }
  rewrite length_replicate in Hl.
  rewrite bind_Ok. eexists. split; [done|]. split.
  { rewrite length_zip_with. lia. }
  intros j c Hc.
  assert (∀ tag, tags !! j = Some tag →
    zip_with (λ token tag, [token] ++ str " " ++ tag) text tags !! j
    = Some (bio_line c tag)) as Hz.
  { intros tag Htag. apply lookup_zip_with_Some. eauto. }
  destruct (Ht j) as [Hcov Hnone]. split_and!.
  - intros e He Hj. apply Hz. rewrite (Hcov e He).
    + unfold tag_at. by rewrite bool_decide_true.
    + unfold covers. specialize (Hin e He). lia.
  - intros e He Hj. apply Hz. rewrite (Hcov e He).
    + unfold tag_at. rewrite bool_decide_false by lia. done.
    + unfold covers. lia.
  - intros Hn. apply Hz. rewrite Hnone by done.
    apply lookup_replicate_2. by apply lookup_lt_Some in Hc.
Qed.

Lemma C7_witness :
  ∃ out, text_to_bio (str "abc")
           [{| e_text := str "ab"; e_start := 0; e_end := 2; e_type := str "LOC" |}]
         = Ok out ∧ length out = length (str "abc") ∧
    ∀ (j : nat) (c : char), str "abc" !! j = Some c →
      (∀ e, e ∈ [{| e_text := str "ab"; e_start := 0; e_end := 2; e_type := str "LOC" |}] →
         Z.of_nat j = e_start e →
         out !! j = Some (bio_line c (str "B-" ++ e_type e))) ∧
      (∀ e, e ∈ [{| e_text := str "ab"; e_start := 0; e_end := 2; e_type := str "LOC" |}] →
         e_start e < Z.of_nat j < e_end e →
         out !! j = Some (bio_line c (str "I-" ++ e_type e))) ∧
      ((∀ e, e ∈ [{| e_text := str "ab"; e_start := 0; e_end := 2; e_type := str "LOC" |}] →
          ¬ (e_start e ≤ Z.of_nat j < e_end e)) →
         out !! j = Some (bio_line c (str "O"))).
Proof.
  apply (C7_text_to_bio_tags (str "abc")
           [{| e_text := str "ab"; e_start := 0; e_end := 2; e_type := str "LOC" |}]).
  - intros e ->%list_elem_of_singleton. simpl. lia.
  - intros [|i] [|j] e1 e2 Hij H1 H2; simplify_eq/=.
Defined.







(** C10: the end marker shares the child mapping with the edges.  With the
    pattern ["a#b"] compiled, the node of the prefix ["a"], which ends just
    before the ['#'], holds the key ['#'] although ["a"] is no pattern;
    [search] over the text ["a"] takes it for the end of a word and reports
    a match whose text is no pattern.  [build_fail] skipped the edge ['#']:
    the nodes below it have no failure link. *)
Theorem C10_hash_in_pattern :
  ∃ (ws : list pystr) (text pre : pystr) (h : gmap addr dict) (m : Match),
    (∃ w, w ∈ ws ∧ hash ∈ w ∧ (pre ++ [hash]) `prefix_of` w) ∧
    compile 5 ws = Ok h ∧
    (pre ∉ ws) ∧ py_in h end_of_word (VRef pre) = true ∧
    (∃ ms, search 5 h text = Ok ms ∧ m ∈ ms ∧ m.2 ∉ ws) ∧
    py_walk h root (str "a#") = Some (VRef (str "a#")) ∧
    dict_get (deref h (str "a#")) fail_key = None ∧
    py_walk h root (str "a#b") = Some (VRef (str "a#b")) ∧
    dict_get (deref h (str "a#b")) fail_key = None.
Proof.
  exists [str "a#b"], (str "a"), (str "a"). eexists. exists (1, 1, []).
  split.
  { exists (str "a#b"). split_and!; [by_compute|by_compute|by exists (str "b")]. }
  split; [vm_compute; reflexivity|].
  split; [by_compute|]. split; [vm_compute; reflexivity|].
  split.
  { eexists. split; [vm_compute; reflexivity|]. split; by_compute. }
  split_and!; vm_compute; reflexivity.
Qed.
(** * Properties of the code beyond the claims *)

(** X1 ([add_word], lines 13-18): the trie holds the words that were added,
    and no others.  After [add_word] on each word of [ws] (none containing
    ['#']) on a new automaton, following the characters of [w] from the
    root leads to a dict that holds the end marker exactly when [w] is one
    of [ws]. *)
Theorem X1_trie_words ws :
  Forall hashfree ws →
  ∃ h, add_words ws new_automaton = Ok h ∧
    ∀ w, (∃ a, py_walk h root w = Some (VRef a) ∧
               py_in h end_of_word (VRef a) = true) ↔ w ∈ ws.
Proof.
  intros Hfree. destruct (add_words_new_inv ws Hfree) as (h & Hadd & Hinv).
  exists h. split; [done|]. intros w.
  destruct (Hinv ws (λ w, reflexivity _)) as [Hauto _].
  apply (trie_member (node_of ws) (.∈ ws) h w); [by apply node_of_paths_ok| |done].
  intros p. apply word_node_of.
Qed.

Lemma X1_witness :
  ∃ h, add_words [str "he"; str "she"; str "he"] new_automaton = Ok h ∧
    ∀ w, (∃ a, py_walk h root w = Some (VRef a) ∧
               py_in h end_of_word (VRef a) = true)
         ↔ w ∈ [str "he"; str "she"; str "he"].
Proof. apply (X1_trie_words [str "he"; str "she"; str "he"]). by_compute. Defined.





(** X4 ([recognize_entities], lines 148-170): the sort and the overlap
    sweep change nothing.  Whatever the automaton and the mapping, the
    entities returned are the matches of [search], all of them and in the
    order of [search], each with the label the mapping has for its text
    (["UNK"] if none); an error of [search] is passed on. *)
Theorem X4_recognize_keeps_matches n ner text :
  recognize_entities n ner text
  = search n (ac_automaton ner) text ≫= λ ms : list Match,
      Ok (entity_of (entity_type_mapping ner) <$> ms).
Proof. apply recognize_entities_all. Qed.





(** X7 ([build_ac_automaton], lines 128-146): the label of an entry listed
    in several dictionaries.  The three loops write the mapping in the
    order LOC, PER, ORG, so an organisation entry is labelled ORG, any other
    person entry PER, any other location entry LOC, and nothing else has a
    label. *)
Theorem X7_label_precedence n loc per org ner w :
  build_ac_automaton n loc per org = Ok ner →
  entity_type_mapping ner !! w
  = if decide (w ∈ org) then Some (str "ORG")
    else if decide (w ∈ per) then Some (str "PER")
    else if decide (w ∈ loc) then Some (str "LOC")
    else None.
Proof.
  rewrite build_ac_automaton_eq.
  destruct (compile n (loc ++ per ++ org)) as [h| |]; [|done..].
  rewrite bind_Ok. intros [= <-]. cbn [entity_type_mapping].
  rewrite !label_all_lookup. by rewrite lookup_empty.
Qed.

Lemma X7_witness :
  ∃ ner, build_ac_automaton 8 [str "ab"; str "c"] [str "ab"] [] = Ok ner ∧
    entity_type_mapping ner !! str "ab" = Some (str "PER").
Proof.
  destruct (build_ac_automaton 8 [str "ab"; str "c"] [str "ab"] []) as [ner| |] eqn:Hb;
    [|vm_compute in Hb; discriminate..].
  exists ner. split; [done|].
  rewrite (X7_label_precedence 8 [str "ab"; str "c"] [str "ab"] [] ner (str "ab") Hb).
  reflexivity.
Defined.

(** X8 ([text_to_bio], lines 172-196): when no error is raised.  If no
    entity starts below [-len(text)], [text_to_bio] returns one line per
    character of the text, each starting with its character; neither an
    end beyond the text, nor a start beyond it, nor a negative index in
    range is an error. *)
Theorem X8_text_to_bio_returns text es :
  (∀ e, e ∈ es → - Z.of_nat (length text) ≤ e_start e) →
  ∃ out, text_to_bio text es = Ok out ∧ length out = length text ∧
    ∀ k c, text !! k = Some c → ∃ tag, out !! k = Some (bio_line c tag).
Proof.
  intros Hall. unfold text_to_bio. cbv zeta.
  destruct (mark_entities_ok es (replicate (length text) (str "O"))) as (tags & -> & Hl).
  { intros e He. rewrite length_replicate. by apply Hall. }
  rewrite length_replicate in Hl. rewrite bind_Ok. eexists. split; [done|].
  split.
  - rewrite length_zip_with. lia.
  - intros k c Hk. destruct (tags !! k) as [tag|] eqn:Htag.
    + exists tag. rewrite lookup_zip_with, Hk. simpl. by rewrite Htag.
    + apply lookup_ge_None in Htag. apply lookup_lt_Some in Hk. lia.
Qed.

Lemma X8_witness :
  ∃ out, text_to_bio (str "abc")
           [ {| e_text := str "bc"; e_start := 1; e_end := 9; e_type := str "LOC" |};
             {| e_text := []; e_start := 7; e_end := 7; e_type := str "PER" |};
             {| e_text := str "c"; e_start := -1; e_end := 0; e_type := str "ORG" |} ]
         = Ok out ∧ length out = length (str "abc") ∧
    ∀ k c, str "abc" !! k = Some c → ∃ tag, out !! k = Some (bio_line c tag).
Proof.
  apply (X8_text_to_bio_returns (str "abc")).
  intros e He. repeat (apply elem_of_cons in He as [->|He]; [vm_compute; discriminate|]).
  by apply elem_of_nil in He.
Defined.

(** X9 ([text_to_bio], lines 172-196): the one error.  An entity that
    starts below [-len(text)] makes [text_to_bio] raise [IndexError] at the
    assignment of the [B-] tag, wherever it stands in the list. *)
Theorem X9_text_to_bio_index_error text es e :
  e ∈ es → e_start e < - Z.of_nat (length text) →
  text_to_bio text es = Raise IndexError.
Proof.
  intros He Hlow. unfold text_to_bio. cbv zeta.
  rewrite (mark_entities_low es _ e He); [done|].
  by rewrite length_replicate.
Qed.

Lemma X9_witness :
  text_to_bio (str "abc")
    [ {| e_text := str "a"; e_start := 0; e_end := 1; e_type := str "LOC" |};
      {| e_text := str "b"; e_start := -4; e_end := 2; e_type := str "PER" |} ]
  = Raise IndexError.
Proof.
  apply (X9_text_to_bio_index_error (str "abc") _
           {| e_text := str "b"; e_start := -4; e_end := 2; e_type := str "PER" |}).
  - apply list_elem_of_further, list_elem_of_here.
  - vm_compute. reflexivity.
Defined.

(** X10 ([text_to_bio] after [recognize_entities], as [main] calls them,
    lines 148-196): the tags of a recognised text.  Whatever the automaton,
    if [recognize_entities] returns [es] then [text_to_bio] on the same text
    returns one line per character; the line of position [k] carries the
    tag [B-] with the label of the empty string if some entity of [es]
    starts at [k], and [O] otherwise.  No [I-] tag is ever written. *)
Theorem X10_bio_of_recognized n ner text es :
  recognize_entities n ner text = Ok es →
  ∃ out, text_to_bio text es = Ok out ∧ length out = length text ∧
    ∀ (k : nat) c, text !! k = Some c →
      out !! k = Some (bio_line c
        (if decide (Exists (λ e, e_start e = Z.of_nat k) es)
         then str "B-" ++ default (str "UNK") (entity_type_mapping ner !! [])
         else str "O")).
Proof.
  rewrite recognize_entities_all.
  destruct (search n (ac_automaton ner) text) as [ms| |] eqn:Hs; [|done..].
  rewrite bind_Ok. intros [= <-]. unfold text_to_bio. cbv zeta.
  destruct (mark_entities_points (default (str "UNK") (entity_type_mapping ner !! []))
              (entity_of (entity_type_mapping ner) <$> ms)
              (replicate (length text) (str "O"))) as (tags & -> & Hl & Htags).
  { apply Forall_fmap, Forall_forall. intros m Hm.
    destruct (search_matches_empty n _ text ms m Hs Hm) as (j & Hj & ->).
    simpl. split_and!; [lia|lia|done]. }
  rewrite length_replicate in Hl, Htags. rewrite bind_Ok. eexists. split; [done|].
  split; [rewrite length_zip_with; lia|].
  intros k c Hk. pose proof (lookup_lt_Some _ _ _ Hk) as Hlt.
  rewrite lookup_zip_with, Hk. simpl. rewrite Htags by done.
  destruct (decide _); simpl; [done|].
  by rewrite lookup_replicate_2.
Qed.

Lemma X10_witness :
  ∃ ner es out, build_ac_automaton 8 [str "ab"] [] [] = Ok ner ∧
    recognize_entities 8 ner (str "xabyz") = Ok es ∧
    text_to_bio (str "xabyz") es = Ok out ∧ length out = length (str "xabyz") ∧
    ∀ (k : nat) c, str "xabyz" !! k = Some c →
      out !! k = Some (bio_line c
        (if decide (Exists (λ e, e_start e = Z.of_nat k) es)
         then str "B-" ++ default (str "UNK") (entity_type_mapping ner !! [])
         else str "O")).
Proof.
  destruct (build_ac_automaton 8 [str "ab"] [] []) as [ner| |] eqn:Hb;
    [|vm_compute in Hb; discriminate..].
  destruct (recognize_entities 8 ner (str "xabyz")) as [es| |] eqn:Hr;
    [|injection Hb as <-; vm_compute in Hr; discriminate..].
  destruct (X10_bio_of_recognized 8 ner (str "xabyz") es Hr) as (out & Hout).
  by exists ner, es, out.
Defined.

(** X11 ([analyze_entity_frequency], lines 211-226): the entity counter.
    The count of a pair (text, type) is the number of entities of all the
    lists that have this text and this type; 0 for a pair that is no key. *)
Theorem X11_entity_counter entities_list text entity_type :
  counter_get (analyze_entity_frequency entities_list).1 (text, entity_type)
  = Z.of_nat (length (filter (λ e, e_text e = text ∧ e_type e = entity_type)
                             (concat entities_list))).
Proof.
  unfold analyze_entity_frequency. cbn [fst]. rewrite entity_counter_get. cbn [counter_get].
  rewrite Z.add_0_l. f_equal. f_equal. apply list_filter_iff. intros e. split.
  - by intros [= -> ->].
  - by intros [-> ->].
Qed.

(** X12 ([analyze_entity_frequency], lines 211-226): the type counter.
    The count of a type is the number of entities of all the lists that
    have this type, whatever their text. *)
Theorem X12_type_counter entities_list entity_type :
  counter_get (analyze_entity_frequency entities_list).2 entity_type
  = Z.of_nat (length (filter (λ e, e_type e = entity_type) (concat entities_list))).
Proof.
  unfold analyze_entity_frequency. cbn [snd]. rewrite type_counter_get. cbn [counter_get].
  pose proof (entity_counter_filter (λ k, k.2 = entity_type) [] entities_list) as Hf.
  rewrite filter_nil, (counter_total_nil (pystr * pystr)), Z.add_0_l in Hf.
  rewrite Z.add_0_l. exact Hf.
Qed.

(** X13 ([analyze_entity_frequency], lines 211-226): no entity is lost or
    counted twice.  The counts of each of the two counters add up to the
    number of entities of all the lists. *)
Theorem X13_counter_totals entities_list :
  counter_total (analyze_entity_frequency entities_list).1
  = Z.of_nat (length (concat entities_list)) ∧
  counter_total (analyze_entity_frequency entities_list).2
  = Z.of_nat (length (concat entities_list)).
Proof.
  unfold analyze_entity_frequency. cbn [fst snd].
  assert (counter_total (foldl count_entities [] entities_list)
          = Z.of_nat (length (concat entities_list))) as Htot.
  { pose proof (entity_counter_filter (λ _, True) [] entities_list) as Hf.
    rewrite !filter_True_id in Hf. rewrite Hf, (counter_total_nil (pystr * pystr)). lia. }
  split; [done|].
  rewrite type_counter_total, Htot, (counter_total_nil pystr). lia.
Qed.

(** X14 ([load_original_text], lines 198-202): the sentences kept.  For
    every notion of whitespace, each sentence returned is non-empty, does
    not begin or end with whitespace, and is a line of the file without
    the whitespace at its two ends; loading the result again changes
    nothing. *)
Theorem X14_load_original_text is_space lines :
  (∀ s, s ∈ load_original_text is_space lines →
     s ≠ [] ∧
     (∀ c, head s = Some c → is_space c = false) ∧
     (∀ c, last s = Some c → is_space c = false) ∧
     ∃ u v, u ++ s ++ v ∈ lines ∧
            Forall (λ c, is_space c = true) u ∧ Forall (λ c, is_space c = true) v) ∧
  load_original_text is_space (load_original_text is_space lines)
  = load_original_text is_space lines.
Proof.
  assert (∀ s, s ∈ load_original_text is_space lines →
     s ≠ [] ∧
     (∀ c, head s = Some c → is_space c = false) ∧
     (∀ c, last s = Some c → is_space c = false) ∧
     ∃ u v, u ++ s ++ v ∈ lines ∧
            Forall (λ c, is_space c = true) u ∧ Forall (λ c, is_space c = true) v) as Hall.
  { intros s (Hne & line & Hl & ->)%load_original_text_elem.
    destruct (py_strip_spec is_space line) as (u & v & Hs & Hu & Hv & Hh & Hla).
    split_and!; [done..|]. exists u, v. by rewrite <- Hs. }
  split; [done|]. apply load_original_text_id, Forall_forall.
  intros s (Hne & Hh & Hl & _)%Hall. split; [done|]. by apply py_strip_id.
Qed.



(** X16 ([add_word], lines 13-18): a word added again.  [add_word] on a
    word that the trie already holds, as [build_ac_automaton] does for an
    entry listed in two dictionaries, returns and leaves every dict as it
    was, its keys in the same order. *)
Theorem X16_add_word_again ws w :
  Forall hashfree ws → w ∈ ws →
  ∃ h h', add_words ws new_automaton = Ok h ∧ add_word h w = Ok h' ∧
    ∀ p, deref h' p = deref h p.
Proof.
  intros Hfree Hw. destruct (add_words_new_inv ws Hfree) as (h & Hadd & Hinv).
  destruct (Hinv ws (λ w, reflexivity _)) as [Hauto _].
  destruct (add_word_loop_again (node_of ws) (.∈ ws) h [] w Hauto) as (h' & Hh' & Heq).
  - intros k _. right. exists w. split; [done|]. apply prefix_take.
  - done.
  - by exists h, h'.
Qed.

Lemma X16_witness :
  ∃ h h', add_words [str "he"; str "she"] new_automaton = Ok h ∧
    add_word h (str "he") = Ok h' ∧ ∀ p, deref h' p = deref h p.
Proof. apply (X16_add_word_again [str "he"; str "she"] (str "he")); by_compute. Defined.
